(** * A reverse proxy for the Generative Language API as a Netlify edge function

    This development embeds [netlify/functions/proxy_go.ts] and the parts of the
    web platform that the file calls ([Headers], [URL], [Response],
    [TransformStream], [fetch]), and verifies the handler against its
    specification.

    Strings are byte strings: a header name, a header value and a serialized
    URL path are ASCII on the platform, and the static page is kept as its
    UTF-8 bytes. *)

From Stdlib Require Import List String Ascii Bool Arith Lia.
From Stdlib Require Import Sorting.Sorted Structures.OrderedTypeEx.
Import ListNotations.
Open Scope string_scope.
Open Scope list_scope.

(** ** Strings *)

(** The double quote, for the attribute values of the static page. *)
Definition dq : string := String (ascii_of_nat 34) EmptyString.

(** Byte-lowercase (Fetch, Infra): A..Z are moved to a..z, other bytes stay. *)
Definition byte_lower (c : ascii) : ascii :=
  let n := nat_of_ascii c in
  if ((65 <=? n) && (n <=? 90))%nat then ascii_of_nat (n + 32) else c.

Fixpoint lower (s : string) : string :=
  match s with
  | EmptyString => EmptyString
  | String c s' => String (byte_lower c) (lower s')
  end.

(** [needle] occurs in [s]. *)
Fixpoint includes (needle s : string) : bool :=
  String.prefix needle s
  || match s with
     | EmptyString => false
     | String _ s' => includes needle s'
     end.

(** HTTP whitespace bytes (Fetch): tab, line feed, carriage return, space. *)
Definition http_whitespace (c : ascii) : bool :=
  let n := nat_of_ascii c in
  ((n =? 9) || (n =? 10) || (n =? 13) || (n =? 32))%nat.

Fixpoint strip_leading (s : string) : string :=
  match s with
  | EmptyString => EmptyString
  | String c s' => if http_whitespace c then strip_leading s' else s
  end.

Fixpoint strip_trailing (s : string) : string :=
  match s with
  | EmptyString => EmptyString
  | String c s' =>
      match strip_trailing s' with
      | EmptyString => if http_whitespace c then EmptyString else String c EmptyString
      | r => String c r
      end
  end.

(** Fetch, "normalize a byte sequence": leading and trailing HTTP whitespace
    bytes are removed. *)
Definition normalize (value : string) : string :=
  strip_trailing (strip_leading value).

(** A header value as a header list holds it has no leading and no trailing
    HTTP whitespace. *)
Definition normalized (value : string) : Prop := normalize value = value.

(** ** Sorting names in byte order *)

Fixpoint insert_sorted (x : string) (l : list string) : list string :=
  match l with
  | [] => [x]
  | y :: l' => if String.ltb y x then y :: insert_sorted x l' else x :: l
  end.

Definition sort_names (l : list string) : list string :=
  fold_right insert_sorted [] l.

(** ** Headers (Fetch Standard)

    A [Headers] object is its header list: names as they were given, every
    value normalized, repeated names allowed. Names are compared
    byte-case-insensitively. The validation of names and values that [append]
    and [set] perform (a [TypeError] for a name that is no token or a value with
    NUL, CR or LF) is left out: the handler passes only names that [keys]
    yields, values that [get] returns and the constants of the file. *)

Abbreviation Header := (string * string)%type (only parsing).
Abbreviation Headers := (list (string * string)) (only parsing).

Definition name_is (name : string) (h : Header) : bool :=
  lower (fst h) =? lower name.

(** The values of the headers called [name], in list order. *)
Definition Headers_values (headers : Headers) (name : string) : list string :=
  map snd (filter (name_is name) headers).

Definition Headers_has (headers : Headers) (name : string) : bool :=
  existsb (name_is name) headers.

(** [headers.get(name)]: [null] when no header is called [name], else the
    values joined with a comma and a space. *)
Definition Headers_get (headers : Headers) (name : string) : option string :=
  match Headers_values headers name with
  | [] => None
  | values => Some (String.concat ", " values)
  end.

(** [headers.append(name, value)]: the value is normalized; a name the list
    already has is spelled as its first header spells it. *)
Definition Headers_append (headers : Headers) (name value : string) : Headers :=
  let name' := match find (name_is name) headers with
               | Some h => fst h
               | None => name
               end in
  headers ++ [(name', normalize value)].

(** "set a header": the first header called [name] takes the value, the others
    are removed. *)
Fixpoint set_in_list (headers : Headers) (name value : string) : Headers :=
  match headers with
  | [] => []
  | h :: rest =>
      if name_is name h
      then (fst h, value) :: filter (fun h' => negb (name_is name h')) rest
      else h :: set_in_list rest name value
  end.

(** [headers.set(name, value)]. *)
Definition Headers_set (headers : Headers) (name value : string) : Headers :=
  if Headers_has headers name
  then set_in_list headers name (normalize value)
  else headers ++ [(name, normalize value)].

(** [headers.delete(name)]. *)
Definition Headers_delete (headers : Headers) (name : string) : Headers :=
  filter (fun h => negb (name_is name h)) headers.

(** "sort and combine": what iterating a [Headers] object yields. The names are
    lowercased, repeated ones dropped, and sorted; each name comes with its
    combined value, except [set-cookie], which comes once per value. *)
Definition sorted_names (headers : Headers) : list string :=
  sort_names (nodup string_dec (map (fun h => lower (fst h)) headers)).

Definition combined (headers : Headers) (name : string) : list Header :=
  if name =? "set-cookie"
  then map (fun v => (name, v)) (Headers_values headers name)
  else match Headers_get headers name with
       | Some v => [(name, v)]
       | None => []
       end.

Definition Headers_entries (headers : Headers) : list Header :=
  flat_map (combined headers) (sorted_names headers).

(** [headers.keys()]. *)
Definition Headers_keys (headers : Headers) : list string :=
  map fst (Headers_entries headers).

(** [new Headers(init)]: [init] is a sequence of pairs or a record, and each
    pair is appended. [new Headers()] is [new_Headers []]. A [Headers] object
    given as [init] is iterable, so it is taken as a sequence and read through
    its iterator: the copy is filled from [Headers_entries]. *)
Definition new_Headers (init : list Header) : Headers :=
  fold_left (fun headers h => Headers_append headers (fst h) (snd h)) init [].

(** ** [pickHeaders] *)

(** A regular expression object. Its pattern is kept as what matching does:
    [re_match s index] is the index at which the match ends that matching [s]
    from [index] finds (looking on from [index], or, for a sticky expression,
    at [index] only), and [None] when there is no match. [re_lastIndex] is the
    [lastIndex] property, which a global or sticky expression reads and writes
    at every match. *)
Record RegExp : Type := {
  re_global : bool;
  re_sticky : bool;
  re_lastIndex : nat;
  re_match : string -> nat -> option nat
}.

Definition with_lastIndex (r : RegExp) (index : nat) : RegExp :=
  {| re_global := re_global r;
     re_sticky := re_sticky r;
     re_lastIndex := index;
     re_match := re_match r |}.

(** [r.test(s)] (ECMAScript, RegExpBuiltinExec), with the object as the call
    leaves it. Without the flags [g] and [y] the match starts at 0 and
    [lastIndex] stays as it is; with one of them the match starts at
    [lastIndex], which becomes the end of the match, or 0 when there is
    none. *)
Definition RegExp_test (r : RegExp) (s : string) : bool * RegExp :=
  if re_global r || re_sticky r then
    if (String.length s <? re_lastIndex r)%nat then (false, with_lastIndex r 0)
    else match re_match r s (re_lastIndex r) with
         | Some e => (true, with_lastIndex r e)
         | None => (false, with_lastIndex r 0)
         end
  else
    (match re_match r s 0 with Some _ => true | None => false end, r).

(** A key of the allow-list: [string | RegExp]. *)
Inductive Key : Type :=
| KString (k : string)
| KRegExp (r : RegExp).

(** [typeof k === "string" ? k === key : k.test(key)], with the key as the
    test leaves it. *)
Definition key_test (key : string) (k : Key) : bool * Key :=
  match k with
  | KString s => (s =? key, k)
  | KRegExp r => let (matches, r') := RegExp_test r key in (matches, KRegExp r')
  end.

(** [keys.some(...)]: the keys are tried in their order, up to the first that
    matches. *)
Fixpoint keys_some (key : string) (keys : list Key) : bool * list Key :=
  match keys with
  | [] => (false, [])
  | k :: rest =>
      let (matches, k') := key_test key k in
      if matches then (true, k' :: rest)
      else let (matches', rest') := keys_some key rest in (matches', k' :: rest')
  end.

(** [pickHeaders(headers, keys)]: the picked headers, and the keys as the call
    leaves them; the regular expressions among them are objects of the
    caller. *)
Definition pickHeaders (headers : Headers) (keys : list Key) : Headers * list Key :=
  fold_left
    (fun (state : Headers * list Key) key =>
       let (picked, keys) := state in
       let (matches, keys) := keys_some key keys in
       if matches
       then match Headers_get headers key with
            | Some value => (Headers_set picked key value, keys)
            | None => (picked, keys)
            end
       else (picked, keys))
    (Headers_keys headers)
    (new_Headers [], keys).

(** ** [CORS_HEADERS] *)

(** A [Record<string, string>] is kept as its own properties in insertion
    order, which is what [Object.entries] and the object spread read. *)
Abbreviation JsRecord := (list (string * string)) (only parsing).

Definition Object_entries (o : JsRecord) : list (string * string) := o.

(** [{ ...o, [key]: value }] *)
Definition record_with (o : JsRecord) (key value : string) : JsRecord :=
  if existsb (fun p => fst p =? key) o
  then map (fun p => if fst p =? key then (key, value) else p) o
  else o ++ [(key, value)].

Definition CORS_HEADERS : JsRecord :=
  [ ("access-control-allow-origin", "*");
    ("access-control-allow-methods", "GET, POST, PUT, DELETE, OPTIONS");
    ("access-control-allow-headers",
     "Content-Type, Authorization, x-goog-api-key, x-goog-api-client") ].

(** ** Bodies and streams *)

Definition Chunk : Type := string.

(** A [ReadableStream]: a body that arrives from the network in chunks, or the
    readable side of an identity [TransformStream], either new or with a stream
    piped to its writable side. *)
Inductive ReadableStream : Type :=
| Network (chunks : list Chunk)
| Transform
| Piped (source : ReadableStream).

(** [new TransformStream()]: the pair [{ readable, writable }] is one stream
    object seen from its two sides. *)
Definition new_TransformStream : ReadableStream := Transform.

(** [source.pipeTo(writable)], for the writable side of [transform]. *)
Definition pipeTo (source transform : ReadableStream) : ReadableStream :=
  match transform with
  | Transform => Piped source
  | other => other
  end.

(** What a [Response] is made from: [null] is [None]. *)
Inductive Body : Type :=
| BodyText (text : string)
| BodyStream (stream : ReadableStream).

(** ** Response (Fetch Standard)

    A response is kept as its descriptor: status, status text, header list and
    body. *)
Record Response : Type := {
  status : nat;
  statusText : string;
  headers : Headers;
  body : option Body
}.

Record ResponseInit : Type := {
  init_status : option nat;
  init_statusText : option string;
  init_headers : list Header
}.

(** The response that [new Response(body, init)] makes when its checks pass:
    status 200 and an empty status text unless [init] gives them; the headers
    are filled from [init.headers]; a text body brings its content type when
    [init] names none. *)
Definition response_of (body : option Body) (init : ResponseInit) : Response :=
  let headers := new_Headers (init_headers init) in
  {| status := match init_status init with Some n => n | None => 200 end;
     statusText := match init_statusText init with Some t => t | None => EmptyString end;
     headers := match body with
                | Some (BodyText _) =>
                    if Headers_has headers "content-type" then headers
                    else Headers_append headers "content-type" "text/plain;charset=UTF-8"
                | _ => headers
                end;
     body := body |}.

(** A null body status (Fetch). *)
Definition null_body_status (status : nat) : bool :=
  ((status =? 101) || (status =? 103) || (status =? 204) || (status =? 205)
   || (status =? 304))%nat.

(** The bytes of a reason phrase (HTTP): tab, space, the visible ASCII bytes
    and the bytes from 128 on. *)
Definition reason_phrase_byte (c : ascii) : bool :=
  let n := nat_of_ascii c in
  ((n =? 9) || (n =? 32) || ((33 <=? n) && (n <=? 126)) || (128 <=? n))%nat.

Fixpoint reason_phrase (text : string) : bool :=
  match text with
  | EmptyString => true
  | String c rest => reason_phrase_byte c && reason_phrase rest
  end.

(** [response.body] *)
Definition Response_body (r : Response) : option ReadableStream :=
  match body r with
  | None => None
  | Some (BodyStream stream) => Some stream
  | Some (BodyText text) => Some (Network [text])
  end.

(** ** URL (URL Standard) *)

Record Authority : Type := {
  username : string;
  password : string;
  host : string;
  port : option nat
}.

(** A URL with a special scheme: its path is a list of segments, its query is
    kept as the list of pairs that [searchParams] reads and writes. *)
Record URL : Type := {
  URL_scheme : string;
  URL_authority : Authority;
  URL_path : list string;
  URL_query : list (string * string)
}.

Fixpoint serialize_path (path : list string) : string :=
  match path with
  | [] => EmptyString
  | segment :: rest => "/" ++ segment ++ serialize_path rest
  end.

(** [url.pathname] *)
Definition URL_pathname (url : URL) : string := serialize_path (URL_path url).

(** [url.searchParams] *)
Definition URL_searchParams (url : URL) : list (string * string) := URL_query url.

(** [url.searchParams.append(key, value)] *)
Definition URL_searchParams_append (url : URL) (key value : string) : URL :=
  {| URL_scheme := URL_scheme url;
     URL_authority := URL_authority url;
     URL_path := URL_path url;
     URL_query := URL_query url ++ [(key, value)] |}.

(** [url.origin] *)
Definition URL_origin (url : URL) : string * string * option nat :=
  (URL_scheme url, host (URL_authority url), port (URL_authority url)).

Definition is_slash (c : ascii) : bool :=
  (c =? "/")%char || (c =? "\")%char.

Definition ends_path (c : ascii) : bool :=
  (c =? "?")%char || (c =? "#")%char.

Definition single_dot (buffer : string) : bool :=
  let b := lower buffer in (b =? ".") || (b =? "%2e").

Definition double_dot (buffer : string) : bool :=
  let b := lower buffer in
  (b =? "..") || (b =? ".%2e") || (b =? "%2e.") || (b =? "%2e%2e").

(** The path state at the end of a segment; [slash] says that a slash ended
    it. *)
Definition end_segment (buffer : string) (path : list string) (slash : bool)
  : list string :=
  if double_dot buffer
  then if slash then removelast path else removelast path ++ [EmptyString]
  else if single_dot buffer
       then if slash then path else path ++ [EmptyString]
       else path ++ [buffer].

(** The path state of the URL parser for a special scheme. A slash or a
    backslash ends a segment, [?] and [#] end the path. Percent-encoding and
    the removal of tabs and newlines are left out: a serialized path holds no
    byte they apply to. *)
Fixpoint path_state (input buffer : string) (path : list string) : list string :=
  match input with
  | EmptyString => end_segment buffer path false
  | String c rest =>
      if is_slash c then path_state rest EmptyString (end_segment buffer path true)
      else if ends_path c then end_segment buffer path false
      else path_state rest (buffer ++ String c EmptyString) path
  end.

(** The path start state. *)
Definition path_start_state (input : string) : list string :=
  match input with
  | String c rest =>
      if is_slash c then path_state rest EmptyString [] else path_state input EmptyString []
  | EmptyString => path_state EmptyString EmptyString []
  end.

(** The special authority ignore slashes state. *)
Fixpoint ignore_slashes (input : string) : string :=
  match input with
  | String c rest => if is_slash c then ignore_slashes rest else input
  | EmptyString => EmptyString
  end.

(** The authority state reads up to the next slash, backslash, [?] or [#]. *)
Fixpoint authority_state (input : string) : string * string :=
  match input with
  | EmptyString => (EmptyString, EmptyString)
  | String c rest =>
      if is_slash c || ends_path c then (EmptyString, input)
      else let (buffer, remaining) := authority_state rest in (String c buffer, remaining)
  end.

(** The base of the target URL, [new URL("https://generativelanguage.googleapis.com")]. *)
Definition upstream : URL :=
  {| URL_scheme := "https";
     URL_authority := {| username := EmptyString; password := EmptyString;
                         host := "generativelanguage.googleapis.com"; port := None |};
     URL_path := [EmptyString];
     URL_query := [] |}.

(** ** Requests *)

Record Request : Type := {
  req_method : string;
  req_url : string;
  req_headers : Headers;
  req_body : option ReadableStream
}.

(** The arguments of a [fetch(url, { body, method, headers })] call. *)
Record FetchCall : Type := {
  fetch_url : URL;
  fetch_body : option ReadableStream;
  fetch_method : string;
  fetch_headers : Headers
}.

(** ** The platform

    What the runtime decides and the file does not: how the URL of a request
    parses, how the authority of a URL parses (credentials, host and port: IDNA,
    IPv4 and IPv6 literals), and what the network answers to a [fetch]. [None]
    stands for the [TypeError] that the call throws, or rejects with. *)
Record Platform : Type := {
  URL_parse : string -> option URL;
  authority_parse : string -> option Authority;
  network : FetchCall -> option Response
}.

(** ** Effects: exceptions and the upstream calls made *)

(** The exceptions: the [TypeError] of a URL that does not parse, the
    [TypeError] of a [fetch] that fails, and those of the [Response]
    constructor: the [RangeError] of a status outside 200..599, the
    [TypeError] of a status text that is no reason phrase and the [TypeError]
    of a body given with a null body status. *)
Inductive Error : Type :=
| InvalidURL (input : string)
| FetchFailed (call : FetchCall)
| InvalidStatus (status : nat)
| InvalidStatusText (text : string)
| BodyNotAllowed (status : nat).

Inductive Completion (A : Type) : Type :=
| Returns (a : A)
| Throws (e : Error).
Arguments Returns {A} a.
Arguments Throws {A} e.

(** A computation reads and extends the list of upstream calls made so far. *)
Definition M (A : Type) : Type := list FetchCall -> Completion A * list FetchCall.

Definition ret {A : Type} (a : A) : M A := fun calls => (Returns a, calls).

Definition throw {A : Type} (e : Error) : M A := fun calls => (Throws e, calls).

Definition bind {A B : Type} (m : M A) (k : A -> M B) : M B :=
  fun calls =>
    match m calls with
    | (Returns a, calls') => k a calls'
    | (Throws e, calls') => (Throws e, calls')
    end.

Notation "x <- m ;; k" := (bind m (fun x => k))
  (at level 61, m at next level, right associativity).

(** A completion that makes no call. *)
Definition lift {A : Type} (c : Completion A) : M A := fun calls => (c, calls).

(** Runs a handler from an empty list of calls. *)
Definition run {A : Type} (m : M A) : Completion A * list FetchCall := m [].

(** [new Response(body, init)] (Fetch, "initialize a response"): a status
    outside 200..599 is a [RangeError], a status text that is no reason phrase
    a [TypeError], a body with a null body status a [TypeError]. (The
    [TypeError] of a header name or value that is not valid is left out: the
    handler passes the constants of the file, or the entries of a [Headers]
    object.) *)
Definition new_Response (body : option Body) (init : ResponseInit) : Completion Response :=
  let status := match init_status init with Some n => n | None => 200 end in
  let statusText := match init_statusText init with Some t => t | None => EmptyString end in
  if negb ((200 <=? status) && (status <=? 599))%nat then Throws (InvalidStatus status)
  else if negb (reason_phrase statusText) then Throws (InvalidStatusText statusText)
  else match body with
       | Some _ =>
           if null_body_status status then Throws (BodyNotAllowed status)
           else Returns (response_of body init)
       | None => Returns (response_of body init)
       end.

Section Handler.

Variable platform : Platform.

(** [new URL(input)] *)
Definition new_URL (input : string) : M URL :=
  match URL_parse platform input with
  | Some url => ret url
  | None => throw (InvalidURL input)
  end.

(** The URL parser on [input] against a [base] with a special scheme, as
    [new URL(input, base)] runs it on a serialized path, which is empty or
    starts with a slash. After one slash the path state follows and the
    authority is the base's; after two (slashes or backslashes) the input names
    its own authority. (An input that starts with neither is read as a relative
    path here; the handler passes none.) *)
Definition URL_parse_relative (input : string) (base : URL) : option URL :=
  match input with
  | EmptyString => Some base
  | String c rest =>
      if is_slash c then
        match rest with
        | String c' rest' =>
            if is_slash c' then
              let (buffer, remaining) := authority_state (ignore_slashes rest') in
              match authority_parse platform buffer with
              | Some authority =>
                  Some {| URL_scheme := URL_scheme base;
                          URL_authority := authority;
                          URL_path := path_start_state remaining;
                          URL_query := [] |}
              | None => None
              end
            else
              Some {| URL_scheme := URL_scheme base;
                      URL_authority := URL_authority base;
                      URL_path := path_state rest EmptyString [];
                      URL_query := [] |}
        | EmptyString =>
            Some {| URL_scheme := URL_scheme base;
                    URL_authority := URL_authority base;
                    URL_path := path_state EmptyString EmptyString [];
                    URL_query := [] |}
        end
      else
        Some {| URL_scheme := URL_scheme base;
                URL_authority := URL_authority base;
                URL_path := path_state input EmptyString (removelast (URL_path base));
                URL_query := [] |}
  end.

(** [new URL(input, base)] *)
Definition new_URL_with_base (input : string) (base : URL) : M URL :=
  match URL_parse_relative input base with
  | Some url => ret url
  | None => throw (InvalidURL input)
  end.

(** [await fetch(url, init)]: the call is made, and the network answers or the
    promise rejects. *)
Definition fetch (call : FetchCall) : M Response :=
  fun calls =>
    match network platform call with
    | Some response => (Returns response, calls ++ [call])
    | None => (Throws (FetchFailed call), calls ++ [call])
    end.

(** ** The handler *)

Definition blank_html : string :=
"
<!DOCTYPE html>
<html>
<head>
  <meta charset=" ++ dq ++ "UTF-8" ++ dq ++ ">
  <title>Google PaLM/Gemini API Proxy on Netlify Edge</title>
</head>
<body>
  <h1>Google PaLM/Gemini API Proxy on Netlify Edge</h1>
  <p>This is a proxy for the Google Generative Language API, deployed on Netlify Edge Functions.</p>
  <p>For technical details, please visit <a href=" ++ dq ++ "https://simonmy.com/posts/使用netlify反向代理google-palm-api.html" ++ dq ++ ">https://simonmy.com/posts/使用netlify反向代理google-palm-api.html</a></p>
</body>
</html>
    ".

(** The keys the handler gives to [pickHeaders]. *)
Definition forwarded_keys : list Key :=
  [ KString "content-type";
    KString "x-goog-api-client";
    KString "x-goog-api-key";
    KString "authorization" ].

Definition NetlifyContext : Type := unit.

Definition handler (request : Request) (context : NetlifyContext) : M Response :=
  if req_method request =? "OPTIONS" then
    lift (new_Response None
           {| init_status := Some 204;
              init_statusText := None;
              init_headers := Object_entries CORS_HEADERS |})
  else
    url <- new_URL (req_url request) ;;
    let pathname := URL_pathname url in
    let searchParams := URL_searchParams url in
    if pathname =? "/" then
      lift (new_Response (Some (BodyText blank_html))
             {| init_status := None;
                init_statusText := None;
                init_headers :=
                  Object_entries
                    (record_with CORS_HEADERS "content-type" "text/html;charset=UTF-8") |})
    else
      targetUrl <- new_URL_with_base pathname upstream ;;
      let targetUrl :=
        fold_left
          (fun targetUrl (param : string * string) =>
             let (key, value) := param in
             if negb (key =? "_path")
             then URL_searchParams_append targetUrl key value
             else targetUrl)
          searchParams targetUrl in
      let forwardedHeaders := fst (pickHeaders (req_headers request) forwarded_keys) in
      googleResponse <- fetch {| fetch_url := targetUrl;
                                 fetch_body := req_body request;
                                 fetch_method := req_method request;
                                 fetch_headers := forwardedHeaders |} ;;
      let responseHeaders := new_Headers (Headers_entries (headers googleResponse)) in
      let responseHeaders :=
        fold_left
          (fun responseHeaders (entry : string * string) =>
             let (key, value) := entry in Headers_set responseHeaders key value)
          (Object_entries CORS_HEADERS) responseHeaders in
      let responseHeaders := Headers_delete responseHeaders "content-encoding" in
      let responseHeaders := Headers_delete responseHeaders "content-length" in
      let responseHeaders := Headers_delete responseHeaders "alt-svc" in
      match Response_body googleResponse with
      | None =>
          lift (new_Response None
                 {| init_status := Some (status googleResponse);
                    init_statusText := Some (statusText googleResponse);
                    init_headers := Headers_entries responseHeaders |})
      | Some upstream_body =>
          let transform := new_TransformStream in
          let transform := pipeTo upstream_body transform in
          lift (new_Response (Some (BodyStream transform))
                 {| init_status := Some (status googleResponse);
                    init_statusText := Some (statusText googleResponse);
                    init_headers := Headers_entries responseHeaders |})
      end.

End Handler.

(** * Notions for the properties *)

(** ** Names in order *)

Definition name_lt (x y : string) : Prop := String.ltb x y = true.

(** ** What the handler builds *)

(** What [name] contributes to the iteration. *)
Definition contribution (h : Headers) (name : string) : list string :=
  if lower name =? "set-cookie"
  then Headers_values h name
  else match Headers_values h name with
       | [] => []
       | values => [String.concat ", " values]
       end.

(** One turn of the loop of [pickHeaders]. *)
Definition turn (headers : Headers) (state : Headers * list Key) (key : string)
  : Headers * list Key :=
  let (picked, keys) := state in
  let (matches, keys) := keys_some key keys in
  if matches
  then match Headers_get headers key with
       | Some value => (Headers_set picked key value, keys)
       | None => (picked, keys)
       end
  else (picked, keys).

(** What a key answers to a name, in the state it is in. *)
Definition key_matches (key : string) (k : Key) : bool := fst (key_test key k).

(** A key that its test leaves as it is: a string, or a regular expression
    without the flags [g] and [y]. *)
Definition stateless (k : Key) : bool :=
  match k with
  | KString _ => true
  | KRegExp r => negb (re_global r || re_sticky r)
  end.

(** A key without its state. *)
Definition reset (k : Key) : Key :=
  match k with
  | KString s => KString s
  | KRegExp r => KRegExp (with_lastIndex r 0)
  end.

(** A key that answers true to a name in one of its states. *)
Definition may_match (name : string) (k : Key) : Prop :=
  exists k', reset k' = reset k /\ key_matches name k' = true.

(** One turn of the loop with keys that their tests leave as they are. *)
Definition pick (headers : Headers) (keys : list Key) (picked : Headers) (key : string)
  : Headers :=
  if existsb (key_matches key) keys
  then match Headers_get headers key with
       | Some value => Headers_set picked key value
       | None => picked
       end
  else picked.

(** What the loop picks with keys that their tests leave as they are. *)
Definition selection (headers : Headers) (keys : list Key) : Headers :=
  fold_left (pick headers keys) (Headers_keys headers) [].

Definition allow_list : list string :=
  ["content-type"; "x-goog-api-client"; "x-goog-api-key"; "authorization"].

Definition removed_list : list string :=
  ["content-encoding"; "content-length"; "alt-svc"].

(** The response to a preflight request. *)
Definition preflight_response : Response :=
  response_of None
    {| init_status := Some 204;
       init_statusText := None;
       init_headers := Object_entries CORS_HEADERS |}.

(** The response to a request for the root path. *)
Definition static_response : Response :=
  response_of (Some (BodyText blank_html))
    {| init_status := None;
       init_statusText := None;
       init_headers :=
         Object_entries (record_with CORS_HEADERS "content-type" "text/html;charset=UTF-8") |}.

(** The query the handler gives the target URL. *)
Definition forward_query (searchParams : list (string * string)) (targetUrl : URL) : URL :=
  fold_left
    (fun targetUrl (param : string * string) =>
       let (key, value) := param in
       if negb (key =? "_path")
       then URL_searchParams_append targetUrl key value
       else targetUrl)
    searchParams targetUrl.

(** The upstream call for a request whose URL parsed as [url], with [target]
    the URL built from its path. *)
Definition upstream_call (request : Request) (url target : URL) : FetchCall :=
  {| fetch_url := forward_query (URL_searchParams url) target;
     fetch_body := req_body request;
     fetch_method := req_method request;
     fetch_headers := fst (pickHeaders (req_headers request) forwarded_keys) |}.

(** The [responseHeaders] the handler builds from the upstream headers. *)
Definition relayed_headers (upstream_headers : Headers) : Headers :=
  Headers_delete
    (Headers_delete
       (Headers_delete
          (fold_left
             (fun responseHeaders (entry : string * string) =>
                let (key, value) := entry in Headers_set responseHeaders key value)
             (Object_entries CORS_HEADERS)
             (new_Headers (Headers_entries upstream_headers)))
          "content-encoding")
       "content-length")
    "alt-svc".

(** The response the handler makes of an upstream response, when one can be
    made of it. *)
Definition relayed_response (googleResponse : Response) : Response :=
  response_of
    match Response_body googleResponse with
    | None => None
    | Some upstream_body => Some (BodyStream (pipeTo upstream_body new_TransformStream))
    end
    {| init_status := Some (status googleResponse);
       init_statusText := Some (statusText googleResponse);
       init_headers := Headers_entries (relayed_headers (headers googleResponse)) |}.

(** What the handler does with an upstream response: the call of the
    [Response] constructor, at line 116 without a body and at line 129 with
    one. *)
Definition relay (googleResponse : Response) : Completion Response :=
  new_Response
    match Response_body googleResponse with
    | None => None
    | Some upstream_body => Some (BodyStream (pipeTo upstream_body new_TransformStream))
    end
    {| init_status := Some (status googleResponse);
       init_statusText := Some (statusText googleResponse);
       init_headers := Headers_entries (relayed_headers (headers googleResponse)) |}.

(** An upstream response of which a response can be made: its status is in
    200..599, its status text is a reason phrase, and it has no body when its
    status is a null body status. (The last two hold of every response that
    [fetch] returns.) *)
Definition relayable (googleResponse : Response) : bool :=
  ((200 <=? status googleResponse) && (status googleResponse <=? 599))%nat
  && reason_phrase (statusText googleResponse)
  && match Response_body googleResponse with
     | Some _ => negb (null_body_status (status googleResponse))
     | None => true
     end.

(** The values under which an upstream name goes out: every [set-cookie] value
    on its own, the values of any other name joined into one. *)
Definition merged (upstream_headers : Headers) (name : string) : list string :=
  if lower name =? "set-cookie"
  then map normalize (Headers_values upstream_headers name)
  else match Headers_values upstream_headers name with
       | [] => []
       | values => [normalize (String.concat ", " values)]
       end.

(** A name that some key matches. *)
Definition matched (keys : list Key) (name : string) : bool :=
  existsb (key_matches name) keys.

(** The value under which [pickHeaders] passes a name on: what [get] reads,
    as [set] stores it. *)
Definition picked_value (headers : Headers) (name : string) : string :=
  normalize (String.concat ", " (Headers_values headers name)).

(** The branches of the handler, by their conditions. *)
Inductive Branch (platform : Platform) (request : Request) : Prop :=
| B_preflight :
    req_method request = "OPTIONS" -> Branch platform request
| B_invalid_url :
    req_method request <> "OPTIONS" ->
    URL_parse platform (req_url request) = None -> Branch platform request
| B_static (url : URL) :
    req_method request <> "OPTIONS" ->
    URL_parse platform (req_url request) = Some url ->
    URL_pathname url = "/" -> Branch platform request
| B_invalid_target (url : URL) :
    req_method request <> "OPTIONS" ->
    URL_parse platform (req_url request) = Some url ->
    URL_pathname url <> "/" ->
    URL_parse_relative platform (URL_pathname url) upstream = None ->
    Branch platform request
| B_upstream (url target : URL) :
    req_method request <> "OPTIONS" ->
    URL_parse platform (req_url request) = Some url ->
    URL_pathname url <> "/" ->
    URL_parse_relative platform (URL_pathname url) upstream = Some target ->
    Branch platform request.

(** ** Paths the URL parser leaves *)

(** A byte that the path state copies into the segment it is reading. *)
Definition plain (c : ascii) : bool := negb (is_slash c || ends_path c).

Fixpoint all_plain (s : string) : bool :=
  match s with
  | EmptyString => true
  | String c s' => plain c && all_plain s'
  end.

(** A segment as the URL parser leaves it in a path: no delimiter in it, and
    not a dot segment. *)
Definition segment_ok (segment : string) : bool :=
  all_plain segment && negb (single_dot segment) && negb (double_dot segment).

Definition path_ok (path : list string) : bool := forallb segment_ok path.

(** ** The relay: [pipeTo] into an identity [TransformStream]

    The response body of the streaming branch is the readable side of a new
    [TransformStream] into whose writable side the upstream body is piped. The
    pipe runs after the handler has returned, a step at a time, as the upstream
    delivers and the client reads:
    - [Pump]: [pipeTo] reads the next chunk from the upstream body and writes
      it to the writable side; the identity transform passes it on as it is.
      [pipeTo] honours backpressure: it reads no chunk while the transform
      holds as many as its high-water mark;
    - [Close]: the upstream body has ended and [pipeTo] closes the writable
      side;
    - [Read]: the client reads the next chunk from the readable side, or, when
      the transform is empty and closed, learns that the body is complete. *)
Module Relay.

(** The high-water mark of the writable side of [new TransformStream()]. *)
Definition highWaterMark : nat := 1.

Record State : Type := {
  pending : list Chunk;      (* what the upstream has still to deliver *)
  held : list Chunk;         (* what the transform holds *)
  closed : bool;             (* the writable side is closed *)
  received : list Chunk;     (* what the client has read, in order *)
  complete : bool            (* the client has read to the end *)
}.

Inductive Action : Type := Pump | Close | Read.

(** The desired size of the writable side: the room its queue has left.
    [pipeTo] reads from its source only while it is positive. *)
Definition desiredSize (s : State) : nat := highWaterMark - List.length (held s).

Definition step (a : Action) (s : State) : option State :=
  match a with
  | Pump =>
      match pending s with
      | chunk :: rest =>
          if (0 <? desiredSize s)%nat
          then Some {| pending := rest; held := held s ++ [chunk]; closed := closed s;
                       received := received s; complete := complete s |}
          else None
      | [] => None
      end
  | Close =>
      match pending s with
      | [] =>
          if closed s then None
          else Some {| pending := []; held := held s; closed := true;
                       received := received s; complete := complete s |}
      | _ :: _ => None
      end
  | Read =>
      match held s with
      | chunk :: rest =>
          Some {| pending := pending s; held := rest; closed := closed s;
                  received := received s ++ [chunk]; complete := complete s |}
      | [] =>
          if closed s && negb (complete s)
          then Some {| pending := pending s; held := []; closed := true;
                       received := received s; complete := true |}
          else None
      end
  end.

(** The pipe when the response is returned. *)
Definition start (chunks : list Chunk) : State :=
  {| pending := chunks; held := []; closed := false; received := []; complete := false |}.

(** The relay a response body stands for. *)
Definition of_body (b : option Body) : option State :=
  match b with
  | Some (BodyStream (Piped (Network chunks))) => Some (start chunks)
  | _ => None
  end.

(** A schedule is run action by action; an action that cannot be taken stops
    it. *)
Fixpoint exec (schedule : list Action) (s : State) : option State :=
  match schedule with
  | [] => Some s
  | a :: rest =>
      match step a s with
      | Some s' => exec rest s'
      | None => None
      end
  end.

(** The schedule of a client that reads every chunk as soon as it is there. *)
Fixpoint eager (chunks : list Chunk) : list Action :=
  match chunks with
  | [] => [Close; Read]
  | _ :: rest => Pump :: Read :: eager rest
  end.

(** The bytes of a list of chunks. *)
Definition bytes (chunks : list Chunk) : string := String.concat EmptyString chunks.

(** What is left to do: two steps for a chunk to deliver, one for a chunk
    held, one to close and one to complete. *)
Definition fuel (s : State) : nat :=
  2 * List.length (pending s) + List.length (held s)
  + (if closed s then 0 else 1) + (if complete s then 0 else 1).

(** What holds of every state the relay reaches from [start chunks]. *)
Definition invariant (chunks : list Chunk) (s : State) : Prop :=
  received s ++ held s ++ pending s = chunks
  /\ List.length (held s) <= highWaterMark
  /\ (closed s = true -> pending s = [])
  /\ (complete s = true -> closed s = true /\ held s = []).

End Relay.

(** ** The state machine of a request *)

Inductive Terminal : Type := Preflight | StaticDocument | HeadersOnly | Streamed.

(** The four outcomes, with the conditions in the order in which they are
    checked and the response of each. *)
Inductive ends_in (platform : Platform) (request : Request)
  : Terminal -> Response -> Prop :=
| E_preflight :
    req_method request = "OPTIONS" ->
    ends_in platform request Preflight preflight_response
| E_static (url : URL) :
    req_method request <> "OPTIONS" ->
    URL_parse platform (req_url request) = Some url ->
    URL_pathname url = "/" ->
    ends_in platform request StaticDocument static_response
| E_headers_only (url target : URL) (googleResponse response : Response) :
    req_method request <> "OPTIONS" ->
    URL_parse platform (req_url request) = Some url ->
    URL_pathname url <> "/" ->
    URL_parse_relative platform (URL_pathname url) upstream = Some target ->
    network platform (upstream_call request url target) = Some googleResponse ->
    Response_body googleResponse = None ->
    relay googleResponse = Returns response ->
    ends_in platform request HeadersOnly response
| E_streamed (url target : URL) (googleResponse response : Response)
             (upstream_body : ReadableStream) :
    req_method request <> "OPTIONS" ->
    URL_parse platform (req_url request) = Some url ->
    URL_pathname url <> "/" ->
    URL_parse_relative platform (URL_pathname url) upstream = Some target ->
    network platform (upstream_call request url target) = Some googleResponse ->
    Response_body googleResponse = Some upstream_body ->
    relay googleResponse = Returns response ->
    ends_in platform request Streamed response.

(** A request that the platform can hand to the handler: the [url] of a
    [Request] is a serialized URL, so it parses. *)
Definition receivable (platform : Platform) (request : Request) : Prop :=
  exists url, URL_parse platform (req_url request) = Some url.

(** The invocation fails: an exception leaves the handler. *)
Definition fails (platform : Platform) (request : Request) (context : NetlifyContext)
  : Prop :=
  exists e calls, run (handler platform request context) = (Throws e, calls).

(** ** Sample requests and platforms *)

Module Sample.

Definition authority_of (name : string) : Authority :=
  {| username := EmptyString; password := EmptyString; host := name; port := None |}.

Definition proxy_url (path : list string) (query : list (string * string)) : URL :=
  {| URL_scheme := "https";
     URL_authority := authority_of "proxy.example";
     URL_path := path;
     URL_query := query |}.

Definition models : string :=
  "https://proxy.example/v1beta/models?key=k&_path=%2Fv1beta%2Fmodels&alt=sse&alt=json".

Definition root : string := "https://proxy.example/".

Definition network_path : string := "https://proxy.example//evil.example/v1beta/models".

Definition empty_authority : string := "https://proxy.example//".

Definition models_url : URL :=
  proxy_url ["v1beta"; "models"]
    [("key", "k"); ("_path", "/v1beta/models"); ("alt", "sse"); ("alt", "json")].

(** [new URL("/v1beta/models", "https://generativelanguage.googleapis.com")] *)
Definition models_target : URL :=
  {| URL_scheme := "https";
     URL_authority := URL_authority upstream;
     URL_path := ["v1beta"; "models"];
     URL_query := [] |}.

(** A platform that reads the sample URLs as the URL Standard does, takes no
    other input, and answers every upstream call with [answer]. *)
Definition platform (answer : option Response) : Platform :=
  {| URL_parse := fun input =>
       if input =? models then Some models_url
       else if input =? root then Some (proxy_url [EmptyString] [])
       else if input =? network_path then
         Some (proxy_url [EmptyString; "evil.example"; "v1beta"; "models"] [])
       else if input =? empty_authority then Some (proxy_url [EmptyString; EmptyString] [])
       else None;
     authority_parse := fun buffer =>
       if buffer =? "evil.example" then Some (authority_of "evil.example") else None;
     network := fun _ => answer |}.

Definition client_headers : Headers :=
  [ ("Content-Type", "application/json");
    ("X-Goog-Api-Key", "secret");
    ("Cookie", "session=1");
    ("User-Agent", "curl/8.0") ].

(** Other headers with the same values at the names of the allow-list. *)
Definition other_headers : Headers :=
  [ ("user-agent", "Mozilla/5.0");
    ("x-goog-api-key", "secret");
    ("cookie", "session=2; theme=dark");
    ("content-type", "application/json");
    ("x-forwarded-for", "203.0.113.7") ].

Definition request (method url : string) (headers : Headers) : Request :=
  {| req_method := method;
     req_url := url;
     req_headers := headers;
     req_body := Some (Network ["{}"]) |}.

(** The upstream call of [request "POST" models client_headers]. *)
Definition models_call : FetchCall :=
  {| fetch_url :=
       {| URL_scheme := "https";
          URL_authority := URL_authority upstream;
          URL_path := ["v1beta"; "models"];
          URL_query := [("key", "k"); ("alt", "sse"); ("alt", "json")] |};
     fetch_body := Some (Network ["{}"]);
     fetch_method := "POST";
     fetch_headers := [("content-type", "application/json"); ("x-goog-api-key", "secret")] |}.

(** An upstream answer in three chunks, with the headers of the specification's
    example. *)
Definition answer : Response :=
  {| status := 404;
     statusText := "Not Found";
     headers := [ ("content-encoding", "gzip");
                  ("content-length", "123");
                  ("alt-svc", ("h3=" ++ dq ++ ":443" ++ dq)%string);
                  ("x-custom", "keep");
                  ("access-control-allow-origin", "https://elsewhere.example") ];
     body := Some (BodyStream (Network ["data: a"; "data: "; "b"])) |}.

(** An upstream answer that repeats header names. *)
Definition repeating : Response :=
  {| status := 200;
     statusText := "OK";
     headers := [ ("vary", "Origin");
                  ("vary", "X-Origin");
                  ("x-custom", "keep");
                  ("x-custom", EmptyString) ];
     body := None |}.

(** An upstream answer with a body and a status above 599. *)
Definition overflowing : Response :=
  {| status := 600;
     statusText := EmptyString;
     headers := [("content-type", "text/event-stream")];
     body := Some (BodyStream (Network ["data: a"; "data: b"])) |}.

(** An upstream answer without a body and with the status 999. *)
Definition unassigned : Response :=
  {| status := 999;
     statusText := "Request denied";
     headers := [("content-length", "0")];
     body := None |}.

(** Inbound headers that repeat a name of the allow-list. *)
Definition repeated_headers : Headers :=
  [ ("Authorization", "Bearer a");
    ("authorization", "Bearer b");
    ("x-goog-api-client", "genai-js");
    ("x-goog-api-client", EmptyString);
    ("cookie", "session=1") ].

End Sample.

(** ** More inputs *)

Module Inputs.

(** A path whose first segment after the empty one names no host: a vertical
    bar is not allowed in one. *)
Definition barred : string := "https://proxy.example//a|b/v1beta/models".

Definition barred_url : URL :=
  Sample.proxy_url [EmptyString; "a|b"; "v1beta"; "models"] [].

(** A platform that reads [barred] as the URL Standard does and finds no
    authority in any input. *)
Definition platform : Platform :=
  {| URL_parse := fun input => if input =? barred then Some barred_url else None;
     authority_parse := fun _ => None;
     network := fun _ => None |}.

(** [/^x-/], and [/^x-/g] when [g] is set: without the flag [m] the pattern
    matches at the start of the string only. *)
Definition x_prefix (g : bool) : RegExp :=
  {| re_global := g;
     re_sticky := false;
     re_lastIndex := 0;
     re_match := fun s index =>
       if (index =? 0)%nat && String.prefix "x-" s then Some 2 else None |}.

(** [/^a$/] *)
Definition exactly_a : RegExp :=
  {| re_global := false;
     re_sticky := false;
     re_lastIndex := 0;
     re_match := fun s index =>
       if (index =? 0)%nat && (s =? "a") then Some 1 else None |}.

Definition x_headers : Headers := [("x-a", "1"); ("x-b", "2"); ("x-c", "3"); ("y", "4")].

(** Headers that repeat a name, and headers that carry the joined value. *)
Definition repeated : Headers := [("B", "2"); ("A", "1"); ("a", "x")].

Definition joined : Headers := [("a", "1, x"); ("b", "2")].

End Inputs.

(** ** Statements of the specification, as they are written *)

(** C2 as it is stated, for the inbound headers and the headers of the upstream
    call: only names of the allow-list go out, and every inbound header whose
    name is in the allow-list goes out exactly once with its own value. *)
Definition forwards_as_stated (inbound outbound : Headers) : Prop :=
  (forall n v, In (n, v) outbound -> In (lower n) allow_list)
  /\ (forall n v,
        In (n, v) inbound -> In (lower n) allow_list ->
        Headers_values outbound n = [v]).

(** C4 as it is stated, for the upstream headers and the headers of the
    response: the three names are removed, the three CORS headers are set, and
    every other name keeps its headers. *)
Definition relays_as_stated (upstream_headers outbound : Headers) : Prop :=
  (forall n, In (lower n) removed_list -> Headers_values outbound n = [])
  /\ (forall n v, In (lower n, v) CORS_HEADERS -> Headers_values outbound n = [v])
  /\ (forall n,
        ~ In (lower n) removed_list ->
        ~ In (lower n) (map fst CORS_HEADERS) ->
        Headers_values outbound n = Headers_values upstream_headers n).

(** C3 as it is stated: whenever the upstream answers with a body in chunks,
    there is a response whose body is the relay of those chunks. *)
Definition streams_as_stated (platform : Platform) (request : Request)
           (context : NetlifyContext) : Prop :=
  forall call googleResponse chunks,
    In call (snd (run (handler platform request context))) ->
    network platform call = Some googleResponse ->
    Response_body googleResponse = Some (Network chunks) ->
    exists response,
      fst (run (handler platform request context)) = Returns response
      /\ Relay.of_body (body response) = Some (Relay.start chunks).

(** C7 as it is stated: whatever the upstream answers, there is a response
    with its status and status text. *)
Definition passes_as_stated (platform : Platform) (request : Request)
           (context : NetlifyContext) : Prop :=
  forall call googleResponse,
    In call (snd (run (handler platform request context))) ->
    network platform call = Some googleResponse ->
    exists response,
      fst (run (handler platform request context)) = Returns response
      /\ status response = status googleResponse
      /\ statusText response = statusText googleResponse.

(** C8 as it is stated: every invocation ends in one of the four outcomes. *)
Definition ends_as_stated (platform : Platform) (request : Request) : Prop :=
  exists terminal response, ends_in platform request terminal response.

(** C9 as it is stated: the invocation fails whenever the URL of the request
    does not parse, and whenever the upstream call fails. *)
Definition fails_as_stated (platform : Platform) (request : Request)
           (context : NetlifyContext) : Prop :=
  (URL_parse platform (req_url request) = None -> fails platform request context)
  /\ (forall call,
        In call (snd (run (handler platform request context))) ->
        network platform call = None ->
        fails platform request context).

(** * Properties *)

(** ** Strings *)

Lemma byte_lower_idem (c : ascii) : byte_lower (byte_lower c) = byte_lower c.
Proof.
  destruct c as [[] [] [] [] [] [] [] []]; reflexivity.
Qed.

Lemma lower_idem (s : string) : lower (lower s) = lower s.
Proof.
  induction s as [|c s IH]; simpl; [reflexivity|].
  now rewrite byte_lower_idem, IH.
Qed.

Lemma strip_leading_head (s : string) :
  strip_leading s = EmptyString
  \/ exists c s', strip_leading s = String c s' /\ http_whitespace c = false.
Proof.
  induction s as [|c s IH]; simpl; [now left|].
  destruct (http_whitespace c) eqn:E; [exact IH|].
  right. now exists c, s.
Qed.

Lemma strip_trailing_idem (s : string) :
  strip_trailing (strip_trailing s) = strip_trailing s.
Proof.
  induction s as [|c s IH]; simpl; [reflexivity|].
  destruct (strip_trailing s) as [|d r] eqn:E.
  - destruct (http_whitespace c) eqn:W; simpl; [reflexivity|].
    now rewrite W.
  - simpl in IH |- *. now rewrite IH.
Qed.

Lemma strip_trailing_head (c : ascii) (s : string) :
  http_whitespace c = false ->
  exists r, strip_trailing (String c s) = String c r.
Proof.
  intros W. simpl.
  destruct (strip_trailing s) as [|d r].
  - rewrite W. now exists EmptyString.
  - now exists (String d r).
Qed.

Lemma normalize_idem (value : string) : normalize (normalize value) = normalize value.
Proof.
  unfold normalize.
  destruct (strip_leading_head value) as [E | (c & s' & E & W)]; rewrite E.
  - reflexivity.
  - destruct (strip_trailing_head c s' W) as [r R].
    rewrite R. simpl strip_leading. rewrite W, <- R.
    apply strip_trailing_idem.
Qed.

(** ** The order on names *)

Lemma ltb_lt (x y : string) : String.ltb x y = true <-> String_as_OT.lt x y.
Proof.
  rewrite <- String_as_OT.cmp_lt. unfold String.ltb, String_as_OT.cmp.
  destruct (String.compare x y); split; congruence.
Qed.

Lemma ltb_irrefl (x : string) : String.ltb x x = false.
Proof.
  destruct (String.ltb x x) eqn:E; [|reflexivity].
  apply ltb_lt in E. exfalso. exact (String_as_OT.lt_not_eq _ _ E eq_refl).
Qed.

Lemma ltb_trans (x y z : string) :
  String.ltb x y = true -> String.ltb y z = true -> String.ltb x z = true.
Proof.
  rewrite !ltb_lt. apply String_as_OT.lt_trans.
Qed.

Lemma ltb_total (x y : string) :
  String.ltb x y = true \/ x = y \/ String.ltb y x = true.
Proof.
  destruct (String_as_OT.compare x y) as [L | E | G].
  - left. now apply ltb_lt.
  - right. now left.
  - right. right. now apply ltb_lt.
Qed.

Lemma insert_sorted_In (x y : string) (l : list string) :
  In y (insert_sorted x l) <-> y = x \/ In y l.
Proof.
  induction l as [|z l IH]; simpl.
  - intuition congruence.
  - destruct (String.ltb z x); simpl; rewrite ?IH; intuition congruence.
Qed.

Lemma sort_names_In (y : string) (l : list string) :
  In y (sort_names l) <-> In y l.
Proof.
  induction l as [|x l IH]; simpl; [reflexivity|].
  rewrite insert_sorted_In, IH. intuition congruence.
Qed.

Lemma insert_sorted_sorted (x : string) (l : list string) :
  ~ In x l -> StronglySorted name_lt l -> StronglySorted name_lt (insert_sorted x l).
Proof.
  intros N S. induction S as [|z l S IH F]; simpl.
  - constructor; [constructor | constructor].
  - destruct (String.ltb z x) eqn:E.
    + constructor.
      * apply IH. intros I. apply N. now right.
      * rewrite Forall_forall in *. intros y Y.
        apply insert_sorted_In in Y. destruct Y as [-> | Y]; [exact E | now apply F].
    + assert (L : name_lt x z).
      { destruct (ltb_total z x) as [L | [-> | L]]; [congruence | | exact L].
        exfalso. apply N. now left. }
      constructor; [now constructor|].
      constructor; [exact L|].
      rewrite Forall_forall in *. intros y Y.
      exact (ltb_trans _ _ _ L (F y Y)).
Qed.

Lemma sort_names_sorted (l : list string) :
  NoDup l -> StronglySorted name_lt (sort_names l).
Proof.
  induction 1 as [|x l N D IH]; simpl; [constructor|].
  apply insert_sorted_sorted; [|exact IH].
  now rewrite sort_names_In.
Qed.

Lemma sorted_NoDup (l : list string) : StronglySorted name_lt l -> NoDup l.
Proof.
  induction 1 as [|x l S IH F]; constructor; [|exact IH].
  intros I. rewrite Forall_forall in F. specialize (F x I).
  unfold name_lt in F. now rewrite ltb_irrefl in F.
Qed.

(** Two strictly sorted lists with the same elements are the same list. *)
Lemma sorted_ext (l1 l2 : list string) :
  StronglySorted name_lt l1 -> StronglySorted name_lt l2 ->
  (forall x, In x l1 <-> In x l2) -> l1 = l2.
Proof.
  intros S1. revert l2.
  induction S1 as [|x l1 S1 IH F1]; intros l2 S2 E.
  - destruct l2 as [|y l2]; [reflexivity|].
    exfalso. apply (E y). now left.
  - destruct S2 as [|y l2 S2 F2].
    { exfalso. apply (E x). now left. }
    rewrite Forall_forall in F1, F2.
    assert (x = y) as <-.
    { destruct (proj1 (E x) (or_introl eq_refl)) as [-> | I]; [reflexivity|].
      destruct (proj2 (E y) (or_introl eq_refl)) as [-> | J]; [reflexivity|].
      exfalso. specialize (F1 y J). specialize (F2 x I).
      unfold name_lt in F1, F2.
      pose proof (ltb_trans _ _ _ F1 F2) as C. now rewrite ltb_irrefl in C. }
    f_equal. apply IH; [exact S2|].
    intros z. split; intros I.
    + destruct (proj1 (E z) (or_intror I)) as [<- | J]; [|exact J].
      exfalso. specialize (F1 x I). unfold name_lt in F1. now rewrite ltb_irrefl in F1.
    + destruct (proj2 (E z) (or_intror I)) as [<- | J]; [|exact J].
      exfalso. specialize (F2 x I). unfold name_lt in F2. now rewrite ltb_irrefl in F2.
Qed.

Lemma sorted_filter (f : string -> bool) (l : list string) :
  StronglySorted name_lt l -> StronglySorted name_lt (filter f l).
Proof.
  induction 1 as [|x l S IH F]; simpl; [constructor|].
  destruct (f x); [|exact IH].
  constructor; [exact IH|].
  rewrite Forall_forall in *. intros y Y. apply filter_In in Y. now apply F.
Qed.

(** ** Headers *)

Lemma name_is_spec (name : string) (h : Header) :
  name_is name h = true <-> lower (fst h) = lower name.
Proof. apply String.eqb_eq. Qed.

Lemma name_is_same (a b : string) (h : Header) :
  lower a = lower b -> name_is a h = name_is b h.
Proof. unfold name_is. now intros ->. Qed.

Lemma name_is_lower (name : string) (h : Header) :
  name_is (lower name) h = name_is name h.
Proof. apply name_is_same, lower_idem. Qed.

Lemma name_is_pair (name k v : string) :
  name_is name (k, v) = (lower k =? lower name).
Proof. reflexivity. Qed.

Lemma Headers_values_app (h1 h2 : Headers) (name : string) :
  Headers_values (h1 ++ h2) name = Headers_values h1 name ++ Headers_values h2 name.
Proof. unfold Headers_values. now rewrite filter_app, map_app. Qed.

Lemma Headers_values_same (a b : string) (h : Headers) :
  lower a = lower b -> Headers_values h a = Headers_values h b.
Proof.
  intros E. unfold Headers_values. f_equal.
  apply filter_ext. intros e. now apply name_is_same.
Qed.

Lemma Headers_values_lower (h : Headers) (name : string) :
  Headers_values h (lower name) = Headers_values h name.
Proof. apply Headers_values_same, lower_idem. Qed.

Lemma Headers_has_values (h : Headers) (name : string) :
  Headers_has h name = false <-> Headers_values h name = [].
Proof.
  unfold Headers_has, Headers_values.
  induction h as [|e h IH]; simpl; [tauto|].
  destruct (name_is name e); simpl; [split; discriminate | exact IH].
Qed.

Lemma Headers_has_true (h : Headers) (name : string) :
  Headers_has h name = true <-> Headers_values h name <> [].
Proof.
  rewrite <- Headers_has_values. destruct (Headers_has h name); split; congruence.
Qed.

Lemma Headers_get_values (h : Headers) (name : string) :
  Headers_get h name =
  if Headers_has h name then Some (String.concat ", " (Headers_values h name)) else None.
Proof.
  unfold Headers_get.
  destruct (Headers_has h name) eqn:E.
  - apply Headers_has_true in E. now destruct (Headers_values h name).
  - apply Headers_has_values in E. now rewrite E.
Qed.

Lemma Headers_has_same (a b : string) (h : Headers) :
  lower a = lower b -> Headers_has h a = Headers_has h b.
Proof.
  intros E. unfold Headers_has.
  induction h as [|e h IH]; simpl; [reflexivity|].
  now rewrite IH, (name_is_same a b e E).
Qed.

Lemma Headers_get_same (a b : string) (h : Headers) :
  lower a = lower b -> Headers_get h a = Headers_get h b.
Proof.
  intros E. unfold Headers_get. now rewrite (Headers_values_same a b h E).
Qed.

Lemma Headers_values_delete (h : Headers) (k name : string) :
  Headers_values (Headers_delete h k) name =
  if lower k =? lower name then [] else Headers_values h name.
Proof.
  unfold Headers_values, Headers_delete.
  induction h as [|e h IH]; simpl; [now destruct (_ =? _)|].
  destruct (name_is k e) eqn:K; simpl.
  - rewrite IH. destruct (lower k =? lower name) eqn:KN; [reflexivity|].
    destruct (name_is name e) eqn:N; [|reflexivity].
    apply name_is_spec in K, N. rewrite <- K, <- N, String.eqb_refl in KN. discriminate.
  - destruct (name_is name e) eqn:N; simpl; rewrite IH; [|reflexivity].
    destruct (lower k =? lower name) eqn:KN; [|reflexivity].
    apply String.eqb_eq in KN. rewrite (name_is_same k name e KN) in K. congruence.
Qed.

Lemma Headers_values_cons (e : Header) (h : Headers) (name : string) :
  Headers_values (e :: h) name =
  (if name_is name e then [snd e] else []) ++ Headers_values h name.
Proof. unfold Headers_values. simpl. now destruct (name_is name e). Qed.

Lemma Headers_values_set_in_list (h : Headers) (k v name : string) :
  Headers_has h k = true ->
  Headers_values (set_in_list h k v) name =
  if lower k =? lower name then [v] else Headers_values h name.
Proof.
  induction h as [|e h IH]; simpl; [discriminate|].
  destruct (name_is k e) eqn:K; simpl.
  - intros _. apply name_is_spec in K.
    change (filter (fun h' => negb (name_is k h')) h) with (Headers_delete h k).
    rewrite !Headers_values_cons, Headers_values_delete, name_is_pair. simpl fst.
    unfold name_is. rewrite K.
    now destruct (lower k =? lower name).
  - intros H. specialize (IH H).
    rewrite !Headers_values_cons, IH.
    destruct (lower k =? lower name) eqn:KN; [|reflexivity].
    apply String.eqb_eq in KN. rewrite (name_is_same k name e KN) in K. now rewrite K.
Qed.

Lemma Headers_values_set (h : Headers) (k v name : string) :
  Headers_values (Headers_set h k v) name =
  if lower k =? lower name then [normalize v] else Headers_values h name.
Proof.
  unfold Headers_set. destruct (Headers_has h k) eqn:H.
  - now apply Headers_values_set_in_list.
  - rewrite Headers_values_app.
    unfold Headers_values at 2. simpl. rewrite name_is_pair.
    destruct (lower k =? lower name) eqn:KN; simpl.
    + apply String.eqb_eq in KN. rewrite (Headers_has_same k name h KN) in H.
      apply Headers_has_values in H. now rewrite H.
    + apply app_nil_r.
Qed.

Lemma Headers_values_append (h : Headers) (k v name : string) :
  Headers_values (Headers_append h k v) name =
  Headers_values h name ++ (if lower k =? lower name then [normalize v] else []).
Proof.
  unfold Headers_append. rewrite Headers_values_app. f_equal.
  unfold Headers_values. simpl. rewrite name_is_pair.
  destruct (find (name_is k) h) as [e|] eqn:F.
  - apply find_some in F. destruct F as [_ F]. apply name_is_spec in F. rewrite F.
    now destruct (lower k =? lower name).
  - now destruct (lower k =? lower name).
Qed.

Lemma Headers_values_fold_append (init h : list Header) (name : string) :
  Headers_values
    (fold_left (fun headers e => Headers_append headers (fst e) (snd e)) init h) name =
  Headers_values h name ++ map normalize (Headers_values init name).
Proof.
  revert h. induction init as [|e init IH]; intros h; simpl.
  - now rewrite app_nil_r.
  - rewrite IH, Headers_values_append, <- app_assoc. f_equal.
    unfold Headers_values. simpl. unfold name_is at 2.
    now destruct (lower (fst e) =? lower name).
Qed.

Lemma Headers_values_new (init : list Header) (name : string) :
  Headers_values (new_Headers init) name = map normalize (Headers_values init name).
Proof. apply (Headers_values_fold_append init []). Qed.

(** *** Sort and combine *)

Lemma sorted_names_In (h : Headers) (n : string) :
  In n (sorted_names h) <-> exists e, In e h /\ lower (fst e) = n.
Proof.
  unfold sorted_names. rewrite sort_names_In, nodup_In, in_map_iff.
  split; intros (e & A & B); exists e; tauto.
Qed.

Lemma sorted_names_lower (h : Headers) (n : string) :
  In n (sorted_names h) -> lower n = n.
Proof.
  rewrite sorted_names_In. intros (e & _ & <-). apply lower_idem.
Qed.

Lemma sorted_names_sorted (h : Headers) : StronglySorted name_lt (sorted_names h).
Proof. apply sort_names_sorted, NoDup_nodup. Qed.

Lemma sorted_names_has (h : Headers) (name : string) :
  In (lower name) (sorted_names h) <-> Headers_has h name = true.
Proof.
  rewrite sorted_names_In. unfold Headers_has. rewrite existsb_exists.
  split; intros (e & A & B); exists e; (split; [exact A|]); now apply name_is_spec.
Qed.

Lemma Headers_values_combined (h : Headers) (n name : string) :
  lower n = n ->
  Headers_values (combined h n) name =
  if n =? lower name then contribution h name else [].
Proof.
  intros L. unfold combined, contribution.
  destruct (n =? lower name) eqn:E.
  - apply String.eqb_eq in E. subst n.
    rewrite Headers_get_values, Headers_has_same with (b := name) by apply lower_idem.
    rewrite Headers_values_lower.
    destruct (lower name =? "set-cookie").
    + induction (Headers_values h name) as [|v vs IH]; simpl map; [reflexivity|].
      now rewrite Headers_values_cons, name_is_pair, lower_idem, String.eqb_refl, IH.
    + destruct (Headers_has h name) eqn:H.
      * apply Headers_has_true in H.
        destruct (Headers_values h name) as [|v vs] eqn:V; [congruence|].
        unfold Headers_values. simpl.
        now rewrite name_is_pair, lower_idem, String.eqb_refl.
      * apply Headers_has_values in H. now rewrite H.
  - assert (N : forall l : list Header,
               (forall e, In e l -> fst e = n) -> Headers_values l name = []).
    { intros l F. unfold Headers_values.
      induction l as [|e l IH]; simpl; [reflexivity|].
      unfold name_is at 1. rewrite (F e (or_introl eq_refl)), L, E.
      apply IH. intros e' I. apply F. now right. }
    apply N. intros e.
    destruct (n =? "set-cookie").
    + rewrite in_map_iff. now intros (v & <- & _).
    + destruct (Headers_get h n); simpl; [|tauto]. now intros [<- | []].
Qed.

Lemma Headers_values_flat_map (f : string -> list Header) (names : list string)
      (name : string) :
  Headers_values (flat_map f names) name =
  flat_map (fun n => Headers_values (f n) name) names.
Proof.
  induction names as [|n names IH]; simpl; [reflexivity|].
  now rewrite Headers_values_app, IH.
Qed.

Lemma flat_map_single (g : list string) (x : string) (names : list string) :
  NoDup names ->
  flat_map (fun n => if n =? x then g else []) names =
  if existsb (String.eqb x) names then g else [].
Proof.
  induction 1 as [|n names N D IH]; simpl; [reflexivity|].
  rewrite (String.eqb_sym x n).
  destruct (n =? x) eqn:E; simpl; [|exact IH].
  apply String.eqb_eq in E. subst n.
  rewrite IH.
  destruct (existsb (String.eqb x) names) eqn:X; [|apply app_nil_r].
  apply existsb_exists in X. destruct X as (y & I & Y).
  apply String.eqb_eq in Y. subst y. contradiction.
Qed.

Lemma flat_map_ext_In {A B : Type} (f g : A -> list B) (l : list A) :
  (forall x, In x l -> f x = g x) -> flat_map f l = flat_map g l.
Proof.
  induction l as [|x l IH]; intros E; simpl; [reflexivity|].
  rewrite (E x (or_introl eq_refl)), IH; [reflexivity|].
  intros y I. apply E. now right.
Qed.

(** Iterating a [Headers] object shows, for every name, its combined value
    once; for [set-cookie], every value. *)
Lemma Headers_values_entries (h : Headers) (name : string) :
  Headers_values (Headers_entries h) name = contribution h name.
Proof.
  unfold Headers_entries. rewrite Headers_values_flat_map.
  rewrite (flat_map_ext_In _ (fun n => if n =? lower name then contribution h name else [])).
  2:{ intros n I. apply Headers_values_combined. now apply sorted_names_lower in I. }
  rewrite flat_map_single by apply sorted_NoDup, sorted_names_sorted.
  destruct (existsb (String.eqb (lower name)) (sorted_names h)) eqn:X; [reflexivity|].
  assert (H : Headers_has h name = false).
  { destruct (Headers_has h name) eqn:H; [|reflexivity].
    apply sorted_names_has in H.
    assert (existsb (String.eqb (lower name)) (sorted_names h) = true); [|congruence].
    apply existsb_exists. exists (lower name). split; [exact H | apply String.eqb_refl]. }
  apply Headers_has_values in H. unfold contribution. rewrite H.
  now destruct (lower name =? "set-cookie").
Qed.

Lemma contribution_same (h : Headers) (a b : string) :
  lower a = lower b -> contribution h a = contribution h b.
Proof.
  intros E. unfold contribution. now rewrite E, (Headers_values_same a b h E).
Qed.

Lemma combined_fst (h : Headers) (n : string) (e : Header) :
  In e (combined h n) -> fst e = n.
Proof.
  unfold combined. destruct (n =? "set-cookie").
  - rewrite in_map_iff. now intros (v & <- & _).
  - destruct (Headers_get h n); simpl; [|tauto]. now intros [<- | []].
Qed.

Lemma combined_inhabited (h : Headers) (n : string) :
  Headers_has h n = true -> exists e, In e (combined h n).
Proof.
  intros H. unfold combined. destruct (n =? "set-cookie").
  - apply Headers_has_true in H.
    destruct (Headers_values h n) as [|v vs]; [congruence|].
    exists (n, v). now left.
  - rewrite Headers_get_values, H. eexists. now left.
Qed.

Lemma Headers_keys_In (h : Headers) (k : string) :
  In k (Headers_keys h) <-> In k (sorted_names h).
Proof.
  unfold Headers_keys, Headers_entries. rewrite in_map_iff. split.
  - intros (e & <- & I). apply in_flat_map in I. destruct I as (n & N & I).
    now rewrite (combined_fst h n e I).
  - intros N.
    assert (H : Headers_has h k = true).
    { apply sorted_names_has. now rewrite (sorted_names_lower h k N). }
    destruct (combined_inhabited h k H) as (e & I).
    exists e. split; [now apply combined_fst in I|].
    apply in_flat_map. now exists k.
Qed.

Lemma Headers_keys_has (h : Headers) (name : string) :
  In (lower name) (Headers_keys h) <-> Headers_has h name = true.
Proof. now rewrite Headers_keys_In, sorted_names_has. Qed.

(** ** [pickHeaders] *)

Lemma pickHeaders_turns (headers : Headers) (keys : list Key) :
  pickHeaders headers keys = fold_left (turn headers) (Headers_keys headers) ([], keys).
Proof. reflexivity. Qed.

(** *** Keys that their tests leave as they are *)

Lemma key_test_stateless (key : string) (k : Key) :
  stateless k = true -> key_test key k = (key_matches key k, k).
Proof.
  unfold key_matches. destruct k as [s | r]; simpl; [reflexivity|].
  intros S. apply negb_true_iff in S. unfold RegExp_test. now rewrite S.
Qed.

Lemma keys_some_stateless (key : string) (keys : list Key) :
  forallb stateless keys = true ->
  keys_some key keys = (existsb (key_matches key) keys, keys).
Proof.
  induction keys as [|k keys IH]; simpl; [reflexivity|].
  intros S. apply andb_true_iff in S. destruct S as [S1 S2].
  rewrite (key_test_stateless key k S1), (IH S2).
  now destruct (key_matches key k).
Qed.

Lemma turn_stateless (h : Headers) (keys : list Key) (picked : Headers) (key : string) :
  forallb stateless keys = true ->
  turn h (picked, keys) key = (pick h keys picked key, keys).
Proof.
  intros S. unfold turn, pick. rewrite (keys_some_stateless key keys S).
  destruct (existsb (key_matches key) keys); [|reflexivity].
  now destruct (Headers_get h key).
Qed.

Lemma turns_stateless (h : Headers) (keys : list Key) (names : list string) :
  forallb stateless keys = true ->
  forall picked,
    fold_left (turn h) names (picked, keys) = (fold_left (pick h keys) names picked, keys).
Proof.
  intros S. induction names as [|n names IH]; intros picked; cbn [fold_left];
    [reflexivity|].
  now rewrite (turn_stateless h keys picked n S), IH.
Qed.

(** With such keys [pickHeaders] returns the [selection] and leaves the keys
    as they are. *)
Lemma pickHeaders_stateless (h : Headers) (keys : list Key) :
  forallb stateless keys = true -> pickHeaders h keys = (selection h keys, keys).
Proof.
  intros S. rewrite pickHeaders_turns. now apply turns_stateless.
Qed.

Lemma selection_fold (headers : Headers) (keys : list Key) :
  selection headers keys = fold_left (pick headers keys) (Headers_keys headers) [].
Proof. reflexivity. Qed.

Lemma pick_fold_values (h : Headers) (keys : list Key) (name : string) (ks : list string) :
  forall picked,
    (forall k, In k ks -> lower k = k) ->
    Headers_values (fold_left (pick h keys) ks picked) name =
    if existsb (fun k => (k =? lower name) && existsb (key_matches k) keys && Headers_has h k) ks
    then [normalize (String.concat ", " (Headers_values h name))]
    else Headers_values picked name.
Proof.
  induction ks as [|k ks IH]; intros picked L; simpl; [reflexivity|].
  rewrite IH by (intros k' I; apply L; now right).
  destruct (existsb _ ks); [now rewrite orb_true_r|].
  rewrite orb_false_r. unfold pick.
  destruct (existsb (key_matches k) keys); [|now rewrite andb_false_r].
  rewrite Headers_get_values.
  destruct (Headers_has h k); [|now rewrite andb_false_r].
  rewrite !andb_true_r, Headers_values_set, (L k (or_introl eq_refl)).
  destruct (k =? lower name) eqn:E; [|reflexivity].
  apply String.eqb_eq in E. subst k. now rewrite Headers_values_lower.
Qed.

(** The [selection], name by name: a name the keys match and
    the headers have comes once, with its combined value; no other name comes. *)
Lemma selection_values (h : Headers) (keys : list Key) (name : string) :
  Headers_values (selection h keys) name =
  if existsb (key_matches (lower name)) keys && Headers_has h name
  then [normalize (String.concat ", " (Headers_values h name))]
  else [].
Proof.
  rewrite selection_fold, pick_fold_values.
  2:{ intros k I. apply Headers_keys_In in I. now apply sorted_names_lower in I. }
  replace (Headers_values [] name) with (@nil string) by reflexivity.
  match goal with |- (if ?a then _ else _) = (if ?b then _ else _) =>
    assert (E : a = b); [|now rewrite E] end.
  apply eq_true_iff_eq. rewrite existsb_exists, andb_true_iff. split.
  - intros (k & _ & C). apply andb_true_iff in C. destruct C as [C H].
    apply andb_true_iff in C. destruct C as [E A].
    apply String.eqb_eq in E. subst k.
    split; [exact A|]. now rewrite <- (Headers_has_same (lower name) name h (lower_idem name)).
  - intros [A H]. exists (lower name). split; [now apply Headers_keys_has|].
    rewrite String.eqb_refl, A. simpl.
    now rewrite (Headers_has_same (lower name) name h (lower_idem name)).
Qed.

Lemma In_Headers_values (h : Headers) (n v : string) :
  In (n, v) h -> In v (Headers_values h n).
Proof.
  intros I. unfold Headers_values. apply in_map_iff. exists (n, v).
  split; [reflexivity|]. apply filter_In. split; [exact I|]. now apply name_is_spec.
Qed.

Lemma selection_only (h : Headers) (keys : list Key) (n v : string) :
  In (n, v) (selection h keys) -> existsb (key_matches (lower n)) keys = true.
Proof.
  intros I. apply In_Headers_values in I. rewrite selection_values in I.
  destruct (existsb (key_matches (lower n)) keys); [reflexivity | contradiction].
Qed.

(** *** What the [selection] reads *)

(** The loop only acts on the keys that match. *)
Lemma pick_fold_filter (h : Headers) (keys : list Key) (ks : list string) :
  forall picked,
    fold_left (pick h keys) ks picked =
    fold_left (pick h keys) (filter (fun k => existsb (key_matches k) keys) ks) picked.
Proof.
  induction ks as [|k ks IH]; intros picked; simpl; [reflexivity|].
  destruct (existsb (key_matches k) keys) eqn:A; simpl; [apply IH|].
  rewrite <- IH. unfold pick at 2. now rewrite A.
Qed.

Lemma filter_keys_names (h : Headers) (f : string -> bool) (names : list string) :
  f "set-cookie" = false ->
  (forall n, In n names -> Headers_has h n = true) ->
  filter f (map fst (flat_map (combined h) names)) = filter f names.
Proof.
  intros C. induction names as [|n names IH]; intros H; [reflexivity|].
  cbn [flat_map]. rewrite map_app, filter_app.
  rewrite IH by (intros n' I; apply H; now right).
  assert (E : filter f (map fst (combined h n)) = if f n then [n] else []);
    [|rewrite E; cbn [filter]; now destruct (f n)].
  unfold combined. destruct (n =? "set-cookie") eqn:S.
  - apply String.eqb_eq in S. subst n. rewrite C.
    induction (Headers_values h "set-cookie") as [|v vs IHv]; simpl; [reflexivity|].
    now rewrite C.
  - rewrite Headers_get_values, (H n (or_introl eq_refl)). reflexivity.
Qed.

Lemma fold_left_ext_In {A B : Type} (f g : A -> B -> A) (l : list B) :
  (forall a x, In x l -> f a x = g a x) ->
  forall a, fold_left f l a = fold_left g l a.
Proof.
  induction l as [|x l IH]; intros E a; simpl; [reflexivity|].
  rewrite (E a x (or_introl eq_refl)). apply IH.
  intros a' y I. apply E. now right.
Qed.

(** The [selection] reads the headers only through [get] at the names that a key
    matches: two header lists that [get] cannot tell apart there give the same
    picked headers. *)
Lemma selection_reads (h1 h2 : Headers) (keys : list Key) :
  existsb (key_matches "set-cookie") keys = false ->
  (forall k, existsb (key_matches k) keys = true -> Headers_get h1 k = Headers_get h2 k) ->
  selection h1 keys = selection h2 keys.
Proof.
  intros C G.
  set (allowed := fun k => existsb (key_matches k) keys).
  assert (K : forall h, filter allowed (Headers_keys h) = filter allowed (sorted_names h)).
  { intros h. apply filter_keys_names; [exact C|].
    intros n I. apply sorted_names_has. now rewrite (sorted_names_lower h n I). }
  assert (N : forall h k, In k (filter allowed (sorted_names h)) <->
                          allowed k = true /\ lower k = k /\ Headers_get h k <> None).
  { intros h k. rewrite filter_In, Headers_get_values. split.
    - intros [I A]. pose proof (sorted_names_lower h k I) as L.
      rewrite <- L in I. apply sorted_names_has in I. rewrite I.
      repeat split; [exact A | exact L | discriminate].
    - intros (A & L & H). split; [|exact A].
      rewrite <- L. apply sorted_names_has.
      destruct (Headers_has h k); [reflexivity | congruence]. }
  rewrite !selection_fold.
  rewrite (pick_fold_filter h1), (pick_fold_filter h2).
  fold allowed. rewrite !K.
  assert (E : filter allowed (sorted_names h1) = filter allowed (sorted_names h2)).
  { apply sorted_ext; try apply sorted_filter, sorted_names_sorted.
    intros k. rewrite !N. split; intros (A & L & H); repeat split; trivial.
    - now rewrite <- (G k A).
    - now rewrite (G k A). }
  rewrite E. apply fold_left_ext_In.
  intros picked k I. apply N in I. destruct I as (A & _ & _).
  unfold pick. now rewrite (G k A).
Qed.

(** ** The platform model at work *)

Example headers_combine :
  new_Headers [("A", "1"); ("a", " 2 "); ("Set-Cookie", "x=1"); ("set-cookie", "y=2")] =
  [("A", "1"); ("A", "2"); ("Set-Cookie", "x=1"); ("Set-Cookie", "y=2")]
  /\ Headers_get [("A", "1"); ("A", "2")] "a" = Some "1, 2"
  /\ Headers_get [("A", "1"); ("A", "2")] "b" = None
  /\ Headers_entries [("b", "0"); ("A", "1"); ("Set-Cookie", "x=1"); ("a", "2");
                      ("set-cookie", "y=2")] =
     [("a", "1, 2"); ("b", "0"); ("set-cookie", "x=1"); ("set-cookie", "y=2")]
  /\ Headers_set [("b", "0"); ("A", "1"); ("a", "2"); ("c", "3")] "a" " z " =
     [("b", "0"); ("A", "z"); ("c", "3")]
  /\ Headers_delete [("b", "0"); ("A", "1"); ("a", "2")] "A" = [("b", "0")].
Proof. repeat split. Qed.

Example paths_parse :
  path_state "a/./b/../c" EmptyString [] = ["a"; "c"]
  /\ path_state "a/%2E%2e/b/" EmptyString [] = ["b"; EmptyString]
  /\ serialize_path ["v1beta"; "models:generateContent"] = "/v1beta/models:generateContent"
  /\ URL_parse_relative (Sample.platform None) "/v1beta/models" upstream =
     Some Sample.models_target
  /\ URL_origin Sample.models_target = URL_origin upstream.
Proof. repeat split. Qed.

(** ** The handler, branch by branch *)

Section Branches.

Variable platform : Platform.
Variable request : Request.
Variable context : NetlifyContext.

Lemma handler_preflight :
  req_method request = "OPTIONS" ->
  run (handler platform request context) = (Returns preflight_response, []).
Proof.
  intros E. unfold handler. now rewrite E.
Qed.

Lemma handler_invalid_url :
  req_method request <> "OPTIONS" ->
  URL_parse platform (req_url request) = None ->
  run (handler platform request context) = (Throws (InvalidURL (req_url request)), []).
Proof.
  intros M U. apply String.eqb_neq in M.
  unfold handler, run, bind, new_URL. now rewrite M, U.
Qed.

Lemma handler_static (url : URL) :
  req_method request <> "OPTIONS" ->
  URL_parse platform (req_url request) = Some url ->
  URL_pathname url = "/" ->
  run (handler platform request context) = (Returns static_response, []).
Proof.
  intros M U R. apply String.eqb_neq in M.
  unfold handler, run, bind, new_URL. rewrite M, U. simpl. now rewrite R.
Qed.

Lemma handler_invalid_target (url : URL) :
  req_method request <> "OPTIONS" ->
  URL_parse platform (req_url request) = Some url ->
  URL_pathname url <> "/" ->
  URL_parse_relative platform (URL_pathname url) upstream = None ->
  run (handler platform request context) = (Throws (InvalidURL (URL_pathname url)), []).
Proof.
  intros M U R T. apply String.eqb_neq in M, R.
  unfold handler, run, bind, new_URL, new_URL_with_base.
  rewrite M, U. simpl. now rewrite R, T.
Qed.

Lemma handler_upstream (url target : URL) :
  req_method request <> "OPTIONS" ->
  URL_parse platform (req_url request) = Some url ->
  URL_pathname url <> "/" ->
  URL_parse_relative platform (URL_pathname url) upstream = Some target ->
  run (handler platform request context) =
  match network platform (upstream_call request url target) with
  | Some googleResponse =>
      (relay googleResponse, [upstream_call request url target])
  | None =>
      (Throws (FetchFailed (upstream_call request url target)),
       [upstream_call request url target])
  end.
Proof.
  intros M U R T. apply String.eqb_neq in M, R.
  unfold handler, run, bind, new_URL, new_URL_with_base, fetch.
  rewrite M, U. cbn [ret]. rewrite R, T. cbn [ret app].
  fold (forward_query (URL_searchParams url) target).
  fold (upstream_call request url target).
  destruct (network platform (upstream_call request url target)) as [g|]; [|reflexivity].
  unfold relay, relayed_headers, lift, new_TransformStream.
  now destruct (Response_body g).
Qed.

Lemma branches : Branch platform request.
Proof.
  destruct (string_dec (req_method request) "OPTIONS") as [M | M];
    [now apply B_preflight|].
  destruct (URL_parse platform (req_url request)) as [url|] eqn:U;
    [|now apply B_invalid_url].
  destruct (string_dec (URL_pathname url) "/") as [R | R];
    [now apply (B_static _ _ url)|].
  destruct (URL_parse_relative platform (URL_pathname url) upstream) as [target|] eqn:T.
  - now apply (B_upstream _ _ url target).
  - now apply (B_invalid_target _ _ url).
Qed.

(** An upstream call is made only in the last branch, and is the only one. *)
Lemma handler_calls (call : FetchCall) :
  In call (snd (run (handler platform request context))) ->
  exists url target,
    req_method request <> "OPTIONS" /\
    URL_parse platform (req_url request) = Some url /\
    URL_pathname url <> "/" /\
    URL_parse_relative platform (URL_pathname url) upstream = Some target /\
    call = upstream_call request url target.
Proof.
  destruct branches as [M | M U | url M U R | url M U R T | url target M U R T].
  - now rewrite handler_preflight.
  - now rewrite handler_invalid_url.
  - now rewrite (handler_static url).
  - now rewrite (handler_invalid_target url).
  - rewrite (handler_upstream url target) by assumption.
    intros I. exists url, target. repeat split; try assumption.
    destruct (network platform (upstream_call request url target));
      simpl in I; destruct I as [<- | []]; reflexivity.
Qed.

End Branches.

(** ** The relay *)

Module RelayFacts.
Import Relay.

Lemma step_invariant (chunks : list Chunk) (a : Action) (s s' : State) :
  invariant chunks s -> step a s = Some s' -> invariant chunks s'.
Proof.
  unfold invariant. intros (I & B & C & D) S.
  destruct a; simpl in S.
  - destruct (pending s) as [|chunk rest] eqn:P; [discriminate|].
    destruct (0 <? desiredSize s)%nat eqn:L; [|discriminate].
    injection S as <-. simpl. apply Nat.ltb_lt in L. unfold desiredSize in L.
    split; [|split; [|split]].
    + rewrite <- I, <- !app_assoc. reflexivity.
    + rewrite length_app. simpl. lia.
    + intros E. specialize (C E). discriminate.
    + intros E. destruct (D E) as [F _]. specialize (C F). discriminate.
  - destruct (pending s) as [|chunk rest] eqn:P; [|discriminate].
    destruct (closed s) eqn:E; [discriminate|].
    injection S as <-. simpl.
    split; [|split; [|split]]; trivial.
    intros F. destruct (D F). congruence.
  - destruct (held s) as [|chunk rest] eqn:H.
    + destruct (closed s && negb (complete s)) eqn:E; [|discriminate].
      injection S as <-. simpl. apply andb_true_iff in E. destruct E as [E _].
      split; [exact I|]. split; [exact B|]. split; [intros _; now apply C|].
      intros _. now split.
    + injection S as <-. simpl.
      split; [|split; [|split]].
      * rewrite <- I, <- !app_assoc. reflexivity.
      * simpl in B. lia.
      * exact C.
      * intros F. now destruct (D F).
Qed.

Lemma step_fuel (a : Action) (s s' : State) :
  step a s = Some s' -> fuel s = S (fuel s').
Proof.
  unfold fuel. intros S. destruct a; simpl in S.
  - destruct (pending s) as [|chunk rest]; [discriminate|].
    destruct (0 <? desiredSize s)%nat; [|discriminate].
    injection S as <-. simpl. rewrite length_app. simpl. lia.
  - destruct (pending s) as [|chunk rest]; [|discriminate].
    destruct (closed s); [discriminate|].
    injection S as <-. simpl. lia.
  - destruct (held s) as [|chunk rest].
    + destruct (closed s) eqn:C; [|discriminate].
      destruct (complete s) eqn:D; [discriminate|].
      injection S as <-. simpl. lia.
    + injection S as <-. simpl. lia.
Qed.

Lemma start_invariant (chunks : list Chunk) : invariant chunks (start chunks).
Proof.
  unfold invariant, start, highWaterMark. simpl.
  split; [reflexivity|]. split; [lia|]. split; discriminate.
Qed.

Lemma exec_invariant (chunks : list Chunk) (schedule : list Action) :
  forall s s', invariant chunks s -> exec schedule s = Some s' -> invariant chunks s'.
Proof.
  induction schedule as [|a schedule IH]; intros s s' I E; simpl in E.
  - now injection E as <-.
  - destruct (step a s) as [s1|] eqn:S; [|discriminate].
    apply (IH s1); [|exact E]. now apply (step_invariant chunks a s).
Qed.

Lemma exec_fuel (schedule : list Action) :
  forall s s', exec schedule s = Some s' -> fuel s = List.length schedule + fuel s'.
Proof.
  induction schedule as [|a schedule IH]; intros s s' E; simpl in E.
  - now injection E as <-.
  - destruct (step a s) as [s1|] eqn:S; [|discriminate].
    rewrite (step_fuel a s s1 S), (IH s1 s' E). reflexivity.
Qed.

(** While the client has not read to the end, the relay can move. *)
Lemma progress (s : State) :
  complete s = false -> exists a s', step a s = Some s'.
Proof.
  intros D. destruct (held s) as [|chunk rest] eqn:H.
  - destruct (pending s) as [|c p] eqn:P.
    + destruct (closed s) eqn:C.
      * exists Read. simpl. rewrite H, C, D. simpl. eauto.
      * exists Close. simpl. rewrite P, C. eauto.
    + exists Pump. simpl. unfold desiredSize. rewrite P, H. simpl. eauto.
  - exists Read. simpl. rewrite H. eauto.
Qed.

Lemma complete_received (chunks : list Chunk) (s : State) :
  invariant chunks s -> complete s = true -> received s = chunks.
Proof.
  intros (I & _ & C & D) E. destruct (D E) as [F H].
  rewrite H, (C F), !app_nil_r in I. exact I.
Qed.

Lemma exec_eager (chunks : list Chunk) :
  forall got,
    exec (eager chunks)
      {| pending := chunks; held := []; closed := false;
         received := got; complete := false |} =
    Some {| pending := []; held := []; closed := true;
            received := got ++ chunks; complete := true |}.
Proof.
  induction chunks as [|chunk chunks IH]; intros got; simpl.
  - now rewrite app_nil_r.
  - rewrite IH, <- app_assoc. reflexivity.
Qed.

(** The relay of a body that the upstream delivers in [chunks]. A client that
    keeps reading reads to the end, and has then read exactly [chunks];
    whatever the interleaving of delivery and reading, [chunks] is what the
    client has read, then what the transform holds, then what the upstream has
    still to deliver; all of them but as many as the high-water mark are with
    the client or still with the upstream; the relay can move until the client
    has read to the end, and that moment comes after [2 * length chunks + 2]
    steps. *)
Lemma relay (chunks : list Chunk) :
  (exists s, exec (eager chunks) (start chunks) = Some s
             /\ complete s = true /\ received s = chunks)
  /\ forall schedule s,
       exec schedule (start chunks) = Some s ->
       received s ++ held s ++ pending s = chunks
       /\ List.length chunks <=
          List.length (received s) + List.length (pending s) + highWaterMark
       /\ (complete s = true ->
           received s = chunks /\ bytes (received s) = bytes chunks)
       /\ (complete s = false -> exists a s', step a s = Some s')
       /\ List.length schedule + fuel s = 2 * List.length chunks + 2.
Proof.
  split.
  - eexists. split; [apply (exec_eager chunks [])|]. now split.
  - intros schedule s E.
    pose proof (exec_invariant chunks schedule _ _ (start_invariant chunks) E) as I.
    split; [apply I|].
    split.
    { destruct I as (I & B & _). rewrite <- I, !length_app. lia. }
    split; [|split; [apply progress|]].
    + intros C. now rewrite (complete_received chunks s I C).
    + rewrite <- (exec_fuel schedule _ _ E). unfold fuel, start. simpl. lia.
Qed.

End RelayFacts.

(** ** The target URL *)

Lemma forward_query_spec (searchParams : list (string * string)) :
  forall targetUrl,
    forward_query searchParams targetUrl =
    {| URL_scheme := URL_scheme targetUrl;
       URL_authority := URL_authority targetUrl;
       URL_path := URL_path targetUrl;
       URL_query := URL_query targetUrl
                    ++ filter (fun param => negb (fst param =? "_path")) searchParams |}.
Proof.
  unfold forward_query.
  induction searchParams as [|[key value] params IH]; intros targetUrl; simpl.
  - rewrite app_nil_r. now destruct targetUrl.
  - rewrite IH. destruct (key =? "_path"); simpl; [reflexivity|].
    now rewrite <- app_assoc.
Qed.

Lemma append_assoc (a b c : string) : ((a ++ b) ++ c)%string = (a ++ (b ++ c))%string.
Proof.
  induction a as [|x a IH]; simpl; [reflexivity|]. now rewrite IH.
Qed.

Lemma append_empty (a : string) : (a ++ EmptyString)%string = a.
Proof.
  induction a as [|x a IH]; simpl; [reflexivity|]. now rewrite IH.
Qed.

Lemma plain_spec (c : ascii) :
  plain c = true <-> is_slash c = false /\ ends_path c = false.
Proof.
  unfold plain. now rewrite negb_true_iff, orb_false_iff.
Qed.

Lemma all_plain_cons (c : ascii) (s : string) :
  all_plain (String c s) = true <-> plain c = true /\ all_plain s = true.
Proof. apply andb_true_iff. Qed.

Lemma segment_ok_spec (segment : string) :
  segment_ok segment = true <->
  all_plain segment = true /\ single_dot segment = false /\ double_dot segment = false.
Proof.
  unfold segment_ok. rewrite !andb_true_iff, !negb_true_iff. tauto.
Qed.

Lemma path_ok_cons (segment : string) (rest : list string) :
  path_ok (segment :: rest) = true <-> segment_ok segment = true /\ path_ok rest = true.
Proof. apply andb_true_iff. Qed.

Lemma path_state_plain (s tail : string) :
  all_plain s = true ->
  forall buffer path,
    path_state (s ++ tail) buffer path = path_state tail (buffer ++ s) path.
Proof.
  induction s as [|c s IH]; intros A buffer path; simpl.
  - now rewrite append_empty.
  - apply all_plain_cons in A. destruct A as [C A].
    apply plain_spec in C. destruct C as [C1 C2].
    rewrite C1, C2, (IH A), append_assoc. reflexivity.
Qed.

Lemma end_segment_ok (segment : string) (path : list string) (slash : bool) :
  segment_ok segment = true -> end_segment segment path slash = path ++ [segment].
Proof.
  intros S. apply segment_ok_spec in S. destruct S as (_ & D1 & D2).
  unfold end_segment. now rewrite D1, D2.
Qed.

(** The path state reads a serialized path back. *)
Lemma path_state_serialize (rest : list string) :
  forall segment path,
    path_ok (segment :: rest) = true ->
    path_state (segment ++ serialize_path rest) EmptyString path = path ++ segment :: rest.
Proof.
  induction rest as [|next rest IH]; intros segment path O;
    apply path_ok_cons in O; destruct O as [S O];
    rewrite (path_state_plain segment _ (proj1 (proj1 (segment_ok_spec segment) S))).
  - simpl. now apply end_segment_ok.
  - change (serialize_path (next :: rest))
      with (String "/" (next ++ serialize_path rest)).
    simpl. rewrite (end_segment_ok segment path true S).
    rewrite (IH next (path ++ [segment]) O), <- app_assoc. reflexivity.
Qed.

(** A path that does not start with an empty segment followed by more comes
    back as it is, under the authority of the base. *)
Lemma URL_parse_relative_plain (platform : Platform) (segment : string)
      (rest : list string) (base : URL) :
  path_ok (segment :: rest) = true ->
  segment <> EmptyString \/ rest = [] ->
  URL_parse_relative platform (serialize_path (segment :: rest)) base =
  Some {| URL_scheme := URL_scheme base;
          URL_authority := URL_authority base;
          URL_path := segment :: rest;
          URL_query := [] |}.
Proof.
  intros O N.
  change (serialize_path (segment :: rest))
    with (String "/" (segment ++ serialize_path rest)).
  unfold URL_parse_relative.
  replace (is_slash "/") with true by reflexivity.
  destruct segment as [|c segment].
  - destruct N as [N | ->]; [congruence|]. reflexivity.
  - assert (C : is_slash c = false).
    { apply path_ok_cons in O. destruct O as [S _].
      apply segment_ok_spec in S. destruct S as [S _].
      apply all_plain_cons in S. destruct S as [S _].
      now apply plain_spec in S. }
    change (String c segment ++ serialize_path rest)%string
      with (String c (segment ++ serialize_path rest)).
    cbv iota beta. rewrite C.
    change (String c (segment ++ serialize_path rest))
      with (String c segment ++ serialize_path rest)%string.
    now rewrite (path_state_serialize rest (String c segment) [] O).
Qed.

Example run_models :
  run (handler (Sample.platform (Some Sample.answer))
         (Sample.request "POST" Sample.models Sample.client_headers) tt) =
  (Returns
     {| status := 404;
        statusText := "Not Found";
        headers :=
          [ ("access-control-allow-headers",
             "Content-Type, Authorization, x-goog-api-key, x-goog-api-client");
            ("access-control-allow-methods", "GET, POST, PUT, DELETE, OPTIONS");
            ("access-control-allow-origin", "*");
            ("x-custom", "keep") ];
        body := Some (BodyStream (Piped (Network ["data: a"; "data: "; "b"]))) |},
   [Sample.models_call]).
Proof. reflexivity. Qed.

(** ** What the handler returns *)

Lemma relayed_status (googleResponse : Response) :
  status (relayed_response googleResponse) = status googleResponse
  /\ statusText (relayed_response googleResponse) = statusText googleResponse.
Proof. now split. Qed.

Lemma relayed_body (googleResponse : Response) :
  body (relayed_response googleResponse) =
  match Response_body googleResponse with
  | None => None
  | Some upstream_body => Some (BodyStream (Piped upstream_body))
  end.
Proof. unfold relayed_response. now destruct (Response_body googleResponse). Qed.

Lemma relayed_headers_of (googleResponse : Response) :
  headers (relayed_response googleResponse) =
  new_Headers (Headers_entries (relayed_headers (headers googleResponse))).
Proof. unfold relayed_response. now destruct (Response_body googleResponse). Qed.

(** The [Response] constructor accepts the upstream responses that are
    [relayable], and no other. *)
Lemma relay_relayable (googleResponse : Response) :
  relayable googleResponse = true ->
  relay googleResponse = Returns (relayed_response googleResponse).
Proof.
  unfold relayable, relay, relayed_response, new_Response. cbn [init_status init_statusText].
  intros R. apply andb_true_iff in R. destruct R as [R B].
  apply andb_true_iff in R. destruct R as [S T].
  rewrite S, T. cbn [negb].
  destruct (Response_body googleResponse); [|reflexivity].
  apply negb_true_iff in B. now rewrite B.
Qed.

Lemma relay_returns (googleResponse response : Response) :
  relay googleResponse = Returns response ->
  relayable googleResponse = true /\ response = relayed_response googleResponse.
Proof.
  unfold relayable, relay, relayed_response, new_Response. cbn [init_status init_statusText].
  destruct ((200 <=? status googleResponse) && (status googleResponse <=? 599))%nat;
    [|discriminate].
  destruct (reason_phrase (statusText googleResponse)); [|discriminate].
  cbn [negb andb].
  destruct (Response_body googleResponse).
  - destruct (null_body_status (status googleResponse)); [discriminate|].
    intros [= <-]. now split.
  - intros [= <-]. now split.
Qed.

Lemma relay_throws (googleResponse : Response) :
  relayable googleResponse = false ->
  exists e, relay googleResponse = Throws e.
Proof.
  intros R. destruct (relay googleResponse) as [response | e] eqn:E.
  - apply relay_returns in E. destruct E as [E _]. congruence.
  - now exists e.
Qed.

(** The error of a status outside 200..599. *)
Lemma relay_status (googleResponse : Response) :
  (status googleResponse < 200 \/ 599 < status googleResponse) ->
  relay googleResponse = Throws (InvalidStatus (status googleResponse)).
Proof.
  intros S. unfold relay, new_Response. cbn [init_status].
  replace ((200 <=? status googleResponse) && (status googleResponse <=? 599))%nat
    with false; [reflexivity|].
  symmetry. apply andb_false_iff.
  destruct S as [S | S]; [left | right]; apply Nat.leb_gt; exact S.
Qed.

(** The run of a handler whose upstream call was answered. *)
Lemma handler_answered (platform : Platform) (request : Request)
      (context : NetlifyContext) (call : FetchCall) (googleResponse : Response) :
  In call (snd (run (handler platform request context))) ->
  network platform call = Some googleResponse ->
  run (handler platform request context) = (relay googleResponse, [call]).
Proof.
  intros I N.
  destruct (handler_calls platform request context call I)
    as (url & target & M & U & R & T & ->).
  rewrite (handler_upstream platform request context url target M U R T).
  now rewrite N.
Qed.

Lemma forwarded_keys_match (key : string) :
  existsb (key_matches key) forwarded_keys = true <-> In key allow_list.
Proof.
  unfold forwarded_keys, allow_list, key_matches. cbn [existsb key_test fst In]. split.
  - intros H.
    repeat (apply orb_true_iff in H; destruct H as [H | H];
            [apply String.eqb_eq in H; subst; auto 6|]).
    discriminate.
  - intros [<- | [<- | [<- | [<- | []]]]]; reflexivity.
Qed.

(** The keys of the handler are strings. *)
Lemma forwarded_selection (h : Headers) :
  fst (pickHeaders h forwarded_keys) = selection h forwarded_keys.
Proof. now rewrite pickHeaders_stateless. Qed.

Lemma pickHeaders_agree (h1 h2 : Headers) :
  (forall k, In k allow_list -> Headers_get h1 k = Headers_get h2 k) ->
  fst (pickHeaders h1 forwarded_keys) = fst (pickHeaders h2 forwarded_keys).
Proof.
  intros G. rewrite !forwarded_selection. apply selection_reads; [reflexivity|].
  intros k A. apply G. now apply forwarded_keys_match.
Qed.

Lemma merged_contribution (up : Headers) (name : string) :
  merged up name = map normalize (contribution up name).
Proof.
  unfold merged, contribution.
  destruct (lower name =? "set-cookie"); [reflexivity|].
  now destruct (Headers_values up name).
Qed.

Lemma map_normalize_idem (values : list string) :
  map normalize (map normalize values) = map normalize values.
Proof.
  rewrite map_map. apply map_ext. intros v. apply normalize_idem.
Qed.

(** Filling a new [Headers] object from the iteration of [merged] values gives
    them back. *)
Lemma merged_again (up x : Headers) (name : string) :
  Headers_values x name = merged up name ->
  Headers_values (new_Headers (Headers_entries x)) name = merged up name.
Proof.
  intros E. rewrite Headers_values_new, Headers_values_entries.
  unfold contribution. rewrite E. unfold merged.
  destruct (lower name =? "set-cookie"); [apply map_normalize_idem|].
  destruct (Headers_values up name) as [|v vs]; [reflexivity|].
  cbn [String.concat map]. now rewrite normalize_idem.
Qed.

Lemma relayed_headers_values (up : Headers) (name : string) :
  Headers_values (relayed_headers up) name =
  if "alt-svc" =? lower name then []
  else if "content-length" =? lower name then []
  else if "content-encoding" =? lower name then []
  else if "access-control-allow-headers" =? lower name
       then ["Content-Type, Authorization, x-goog-api-key, x-goog-api-client"]
  else if "access-control-allow-methods" =? lower name
       then ["GET, POST, PUT, DELETE, OPTIONS"]
  else if "access-control-allow-origin" =? lower name then ["*"]
  else merged up name.
Proof.
  unfold relayed_headers, Object_entries, CORS_HEADERS. cbn [fold_left].
  rewrite !Headers_values_delete, !Headers_values_set, Headers_values_new,
    Headers_values_entries, merged_contribution.
  reflexivity.
Qed.

(** ** The outcomes *)

Lemma ends_in_run (platform : Platform) (request : Request) (context : NetlifyContext)
      (terminal : Terminal) (response : Response) :
  ends_in platform request terminal response ->
  fst (run (handler platform request context)) = Returns response.
Proof.
  intros [M | url M U R | url target g r M U R T N B E | url target g r b M U R T N B E].
  - now rewrite handler_preflight.
  - now rewrite (handler_static platform request context url).
  - rewrite (handler_upstream platform request context url target M U R T).
    now rewrite N.
  - rewrite (handler_upstream platform request context url target M U R T).
    now rewrite N.
Qed.

(** The conditions of the four outcomes exclude one another. *)
Lemma ends_in_exclusive (platform : Platform) (request : Request)
      (t1 t2 : Terminal) (r1 r2 : Response) :
  ends_in platform request t1 r1 -> ends_in platform request t2 r2 -> t1 = t2.
Proof.
  intros [M | url M U R | url target g r M U R T N B E | url target g r b M U R T N B E]
         [M' | url' M' U' R' | url' target' g' r' M' U' R' T' N' B' E'
          | url' target' g' r' b' M' U' R' T' N' B' E'];
    try reflexivity; try contradiction;
    rewrite U in U'; injection U' as <-; try contradiction;
    rewrite T in T'; injection T' as <-;
    rewrite N in N'; injection N' as <-; congruence.
Qed.

Lemma returns_ends_in (platform : Platform) (request : Request)
      (context : NetlifyContext) (response : Response) :
  fst (run (handler platform request context)) = Returns response ->
  exists terminal, ends_in platform request terminal response.
Proof.
  destruct (branches platform request)
    as [M | M U | url M U R | url M U R T | url target M U R T].
  - rewrite handler_preflight by assumption. simpl. intros [= <-].
    exists Preflight. now constructor.
  - rewrite handler_invalid_url by assumption. discriminate.
  - rewrite (handler_static platform request context url) by assumption.
    simpl. intros [= <-]. exists StaticDocument. now apply (E_static _ _ url).
  - rewrite (handler_invalid_target platform request context url) by assumption.
    discriminate.
  - rewrite (handler_upstream platform request context url target) by assumption.
    destruct (network platform (upstream_call request url target)) as [g|] eqn:N;
      [|discriminate].
    cbn [fst]. intros E.
    destruct (Response_body g) as [b|] eqn:B.
    + exists Streamed. now apply (E_streamed _ _ url target g response b).
    + exists HeadersOnly. now apply (E_headers_only _ _ url target g response).
Qed.

(** ** The upstream call *)

Lemma URL_parse_relative_query (platform : Platform) (input : string) (target : URL) :
  URL_parse_relative platform input upstream = Some target -> URL_query target = [].
Proof.
  unfold URL_parse_relative.
  destruct input as [|c rest]; [now intros [= <-]|].
  destruct (is_slash c); [|now intros [= <-]].
  destruct rest as [|c' rest']; [now intros [= <-]|].
  destruct (is_slash c'); [|now intros [= <-]].
  destruct (authority_state (ignore_slashes rest')) as [buffer remaining].
  destruct (authority_parse platform buffer); [now intros [= <-] | discriminate].
Qed.

(** The query and the method of every upstream call: the parameters of the
    request in their order, without those called [_path]. *)
Lemma forwarded_query (platform : Platform) (request : Request)
      (context : NetlifyContext) (call : FetchCall) :
  In call (snd (run (handler platform request context))) ->
  exists url,
    URL_parse platform (req_url request) = Some url
    /\ URL_query (fetch_url call) =
       filter (fun param => negb (fst param =? "_path")) (URL_searchParams url)
    /\ fetch_method call = req_method request
    /\ fetch_body call = req_body request.
Proof.
  intros I.
  destruct (handler_calls platform request context call I)
    as (url & target & _ & U & _ & T & ->).
  exists url. split; [exact U|].
  unfold upstream_call. cbn [fetch_url fetch_method fetch_body].
  rewrite forward_query_spec. cbn [URL_query].
  now rewrite (URL_parse_relative_query platform _ target T).
Qed.

(** The target of a request whose path does not begin with an empty segment:
    the origin of the upstream, and the path of the request. *)
Lemma plain_path_target (platform : Platform) (request : Request)
      (context : NetlifyContext) (url : URL) (segment : string) (rest : list string) :
  req_method request <> "OPTIONS" ->
  URL_parse platform (req_url request) = Some url ->
  URL_path url = segment :: rest ->
  path_ok (segment :: rest) = true ->
  segment <> EmptyString ->
  exists call,
    snd (run (handler platform request context)) = [call]
    /\ URL_origin (fetch_url call) = URL_origin upstream
    /\ URL_path (fetch_url call) = URL_path url
    /\ URL_query (fetch_url call) =
       filter (fun param => negb (fst param =? "_path")) (URL_searchParams url).
Proof.
  intros M U P O S.
  assert (T : URL_parse_relative platform (URL_pathname url) upstream =
              Some {| URL_scheme := URL_scheme upstream;
                      URL_authority := URL_authority upstream;
                      URL_path := segment :: rest;
                      URL_query := [] |}).
  { unfold URL_pathname. rewrite P. apply URL_parse_relative_plain; [exact O | now left]. }
  assert (R : URL_pathname url <> "/").
  { unfold URL_pathname. rewrite P. simpl.
    destruct segment; [congruence | discriminate]. }
  rewrite (handler_upstream platform request context url _ M U R T).
  eexists. split.
  - destruct (network platform _); reflexivity.
  - unfold upstream_call. cbn [fetch_url]. rewrite forward_query_spec.
    rewrite P. repeat split.
Qed.

Lemma serialize_path_shape (path : list string) :
  serialize_path path = EmptyString \/ exists tail, serialize_path path = String "/" tail.
Proof.
  destruct path as [|segment rest]; [now left|].
  right. now exists (segment ++ serialize_path rest)%string.
Qed.

Lemma authority_state_plain (buffer tail : string) :
  all_plain buffer = true ->
  tail = EmptyString \/ (exists t, tail = String "/" t) ->
  authority_state (buffer ++ tail) = (buffer, tail).
Proof.
  intros A T. induction buffer as [|c buffer IH]; simpl.
  - destruct T as [-> | (t & ->)]; reflexivity.
  - apply all_plain_cons in A. destruct A as [C A].
    unfold plain in C. apply negb_true_iff in C.
    now rewrite C, (IH A).
Qed.

Lemma path_start_state_serialize (path : list string) :
  path_ok path = true ->
  path_start_state (serialize_path path) =
  match path with
  | [] => [EmptyString]
  | _ :: _ => path
  end.
Proof.
  destruct path as [|segment rest]; intros O; [reflexivity|].
  change (serialize_path (segment :: rest))
    with (String "/" (segment ++ serialize_path rest)).
  unfold path_start_state. replace (is_slash "/") with true by reflexivity.
  now rewrite (path_state_serialize rest segment [] O).
Qed.

(** The target of a request whose path begins with an empty segment and goes
    on: the segment after it is read as the authority, and the call goes
    there. *)
Lemma network_path_target (platform : Platform) (request : Request)
      (context : NetlifyContext) (url : URL) (c : ascii) (name : string)
      (rest : list string) (authority : Authority) :
  req_method request <> "OPTIONS" ->
  URL_parse platform (req_url request) = Some url ->
  URL_path url = EmptyString :: String c name :: rest ->
  all_plain (String c name) = true ->
  path_ok rest = true ->
  authority_parse platform (String c name) = Some authority ->
  exists call,
    snd (run (handler platform request context)) = [call]
    /\ URL_authority (fetch_url call) = authority
    /\ URL_path (fetch_url call) =
       match rest with
       | [] => [EmptyString]
       | _ :: _ => rest
       end.
Proof.
  intros M U P A O H.
  assert (C : is_slash c = false).
  { apply all_plain_cons in A. destruct A as [A _]. now apply plain_spec in A. }
  assert (T : URL_parse_relative platform (URL_pathname url) upstream =
              Some {| URL_scheme := URL_scheme upstream;
                      URL_authority := authority;
                      URL_path := match rest with
                                  | [] => [EmptyString]
                                  | _ :: _ => rest
                                  end;
                      URL_query := [] |}).
  { unfold URL_pathname. rewrite P.
    change (serialize_path (EmptyString :: String c name :: rest))
      with (String "/" (String "/" (String c (name ++ serialize_path rest)))).
    unfold URL_parse_relative. replace (is_slash "/") with true by reflexivity.
    cbv iota beta. cbn [ignore_slashes]. rewrite C.
    change (String c (name ++ serialize_path rest))
      with (String c name ++ serialize_path rest)%string.
    rewrite (authority_state_plain _ _ A (serialize_path_shape rest)), H.
    now rewrite (path_start_state_serialize rest O). }
  assert (R : URL_pathname url <> "/").
  { unfold URL_pathname. rewrite P. discriminate. }
  rewrite (handler_upstream platform request context url _ M U R T).
  eexists. split.
  - destruct (network platform _); reflexivity.
  - unfold upstream_call. cbn [fetch_url]. rewrite forward_query_spec. now split.
Qed.

(** * The claims *)

(** ** C1: the target URL *)

(** C1, where the handler departs from it. A request for
    [//evil.example/v1beta/models] is not sent to the upstream:
    [new URL(pathname, base)] reads the path as a reference with an authority
    of its own, and the upstream call goes to that host, with the rest as its
    path. ([plain_path_target] and [forwarded_query] are the part of C1 that
    holds.) *)
Theorem path_names_the_target_host (platform : Platform) (context : NetlifyContext)
        (method : string) (headers : Headers) (body : option ReadableStream) :
  method <> "OPTIONS" ->
  URL_parse platform Sample.network_path =
  Some (Sample.proxy_url [EmptyString; "evil.example"; "v1beta"; "models"] []) ->
  authority_parse platform "evil.example" = Some (Sample.authority_of "evil.example") ->
  exists call,
    snd (run (handler platform
                {| req_method := method; req_url := Sample.network_path;
                   req_headers := headers; req_body := body |} context)) = [call]
    /\ URL_pathname (Sample.proxy_url [EmptyString; "evil.example"; "v1beta"; "models"] [])
       = "//evil.example/v1beta/models"
    /\ URL_origin (fetch_url call) = ("https", "evil.example", None)
    /\ URL_origin upstream = ("https", "generativelanguage.googleapis.com", None)
    /\ URL_path (fetch_url call) = ["v1beta"; "models"].
Proof.
  intros M U A.
  set (request := {| req_method := method; req_url := Sample.network_path;
                     req_headers := headers; req_body := body |}).
  set (url := Sample.proxy_url [EmptyString; "evil.example"; "v1beta"; "models"] []).
  assert (T : URL_parse_relative platform (URL_pathname url) upstream =
              Some {| URL_scheme := "https";
                      URL_authority := Sample.authority_of "evil.example";
                      URL_path := ["v1beta"; "models"];
                      URL_query := [] |}).
  { simpl. now rewrite A. }
  assert (R : URL_pathname url <> "/") by discriminate.
  rewrite (handler_upstream platform request context url _ M U R T).
  eexists. split.
  - destruct (network platform _); reflexivity.
  - repeat split.
Qed.

Lemma path_names_the_target_host_witness :
  "GET" <> "OPTIONS"
  /\ exists call,
       snd (run (handler (Sample.platform None)
                   {| req_method := "GET"; req_url := Sample.network_path;
                      req_headers := Sample.client_headers; req_body := None |} tt)) =
       [call]
       /\ URL_pathname
            (Sample.proxy_url [EmptyString; "evil.example"; "v1beta"; "models"] [])
          = "//evil.example/v1beta/models"
       /\ URL_origin (fetch_url call) = ("https", "evil.example", None)
       /\ URL_origin upstream = ("https", "generativelanguage.googleapis.com", None)
       /\ URL_path (fetch_url call) = ["v1beta"; "models"].
Proof.
  split; [discriminate|].
  apply (path_names_the_target_host (Sample.platform None) tt "GET"
           Sample.client_headers None).
  - discriminate.
  - reflexivity.
  - reflexivity.
Defined.

(** ** C2: the forwarded headers *)

(** C2 does not hold as it is stated: two [authorization] headers go out as
    one, with both values; so do two [x-goog-api-client] headers, and what
    [get] reads of them changes when the last value is empty. *)
Lemma repeated_header_is_merged :
  run (handler (Sample.platform None)
         (Sample.request "POST" Sample.models Sample.repeated_headers) tt) =
  (Throws (FetchFailed
             {| fetch_url := fetch_url Sample.models_call;
                fetch_body := Some (Network ["{}"]);
                fetch_method := "POST";
                fetch_headers := [ ("authorization", "Bearer a, Bearer b");
                                   ("x-goog-api-client", "genai-js,") ] |}),
   [ {| fetch_url := fetch_url Sample.models_call;
        fetch_body := Some (Network ["{}"]);
        fetch_method := "POST";
        fetch_headers := [ ("authorization", "Bearer a, Bearer b");
                           ("x-goog-api-client", "genai-js,") ] |} ])
  /\ Headers_get Sample.repeated_headers "x-goog-api-client" = Some "genai-js, "
  /\ ~ forwards_as_stated Sample.repeated_headers
         (fst (pickHeaders Sample.repeated_headers forwarded_keys)).
Proof.
  split; [reflexivity|]. split; [reflexivity|].
  intros [_ F].
  specialize (F "Authorization" "Bearer a" (or_introl eq_refl)).
  assert (A : In (lower "Authorization") allow_list) by (simpl; tauto).
  specialize (F A). discriminate.
Qed.

(** C2, amended. The headers of every upstream call are those [pickHeaders]
    takes from the inbound headers: only names of the allow-list; a name of the
    allow-list that the inbound headers have, exactly once, its value the
    inbound values of that name in their order, joined with a comma and a
    space and without whitespace around them, which is the inbound value as it
    is when the name comes once; no other name. *)
Theorem forwarded_headers (platform : Platform) (request : Request)
        (context : NetlifyContext) (call : FetchCall) :
  In call (snd (run (handler platform request context))) ->
  (forall n v, In (n, v) (fetch_headers call) -> In (lower n) allow_list)
  /\ (forall n,
        In (lower n) allow_list ->
        Headers_has (req_headers request) n = true ->
        Headers_values (fetch_headers call) n =
        [normalize (String.concat ", " (Headers_values (req_headers request) n))])
  /\ (forall n v,
        In (lower n) allow_list ->
        Headers_values (req_headers request) n = [v] ->
        normalized v ->
        Headers_values (fetch_headers call) n = [v])
  /\ (forall n,
        ~ In (lower n) allow_list ->
        Headers_values (fetch_headers call) n = []).
Proof.
  intros I.
  destruct (handler_calls platform request context call I)
    as (url & target & _ & _ & _ & _ & ->).
  cbn [fetch_headers upstream_call]. rewrite forwarded_selection.
  split; [|split; [|split]].
  - intros n v P. apply forwarded_keys_match. now apply selection_only in P.
  - intros n A H. rewrite selection_values, H.
    apply forwarded_keys_match in A. now rewrite A.
  - intros n v A V N. rewrite selection_values.
    apply forwarded_keys_match in A. rewrite A.
    assert (H : Headers_has (req_headers request) n = true).
    { apply Headers_has_true. rewrite V. discriminate. }
    rewrite H, V. simpl. now rewrite N.
  - intros n A. rewrite selection_values.
    destruct (existsb (key_matches (lower n)) forwarded_keys) eqn:E; [|reflexivity].
    apply forwarded_keys_match in E. contradiction.
Qed.

Lemma forwarded_headers_witness :
  In Sample.models_call
     (snd (run (handler (Sample.platform (Some Sample.answer))
                  (Sample.request "POST" Sample.models Sample.client_headers) tt)))
  /\ (forall n v, In (n, v) (fetch_headers Sample.models_call) -> In (lower n) allow_list)
  /\ (forall n,
        In (lower n) allow_list ->
        Headers_has Sample.client_headers n = true ->
        Headers_values (fetch_headers Sample.models_call) n =
        [normalize (String.concat ", " (Headers_values Sample.client_headers n))])
  /\ (forall n v,
        In (lower n) allow_list ->
        Headers_values Sample.client_headers n = [v] ->
        normalized v ->
        Headers_values (fetch_headers Sample.models_call) n = [v])
  /\ (forall n,
        ~ In (lower n) allow_list ->
        Headers_values (fetch_headers Sample.models_call) n = []).
Proof.
  split; [left; reflexivity|].
  apply (forwarded_headers (Sample.platform (Some Sample.answer))
           (Sample.request "POST" Sample.models Sample.client_headers) tt
           Sample.models_call).
  left. reflexivity.
Defined.

(** ** C3: the streamed body *)

(** C3 does not hold as it is stated: of an upstream answer with the status
    600 no response is made, and its body is not passed on; the [Response]
    constructor of line 129 throws, after the upstream call. *)
Lemma unrelayable_body_is_not_streamed :
  run (handler (Sample.platform (Some Sample.overflowing))
         (Sample.request "POST" Sample.models Sample.client_headers) tt) =
  (Throws (InvalidStatus 600), [Sample.models_call])
  /\ Response_body Sample.overflowing = Some (Network ["data: a"; "data: b"])
  /\ ~ streams_as_stated (Sample.platform (Some Sample.overflowing))
         (Sample.request "POST" Sample.models Sample.client_headers) tt.
Proof.
  split; [reflexivity|]. split; [reflexivity|].
  intros F.
  destruct (F Sample.models_call Sample.overflowing ["data: a"; "data: b"]
              (or_introl eq_refl) eq_refl eq_refl) as (response & E & _).
  discriminate.
Qed.

(** C3, amended. When the upstream body arrives in [chunks] and a response
    can be made of the upstream answer, the handler returns it with the relay
    of those chunks as its body, none of them read yet: a client that keeps
    reading reads to the end and has then read exactly [chunks], so their
    bytes in their order; under every interleaving of delivery and reading,
    [chunks] is what the client has read, then what the transform holds, then
    what the upstream has still to deliver, and all of them but one (the
    high-water mark) are with the client or still with the upstream, however
    many there are: the relay never holds the payload; the relay can move
    until the client has read to the end, which comes after
    [2 * length chunks + 2] steps. *)
Theorem streamed_body_is_the_upstream_chunks (platform : Platform) (request : Request)
        (context : NetlifyContext) (call : FetchCall) (googleResponse : Response)
        (chunks : list Chunk) :
  In call (snd (run (handler platform request context))) ->
  network platform call = Some googleResponse ->
  Response_body googleResponse = Some (Network chunks) ->
  relayable googleResponse = true ->
  exists response,
    run (handler platform request context) = (Returns response, [call])
    /\ Relay.of_body (body response) = Some (Relay.start chunks)
    /\ (exists s, Relay.exec (Relay.eager chunks) (Relay.start chunks) = Some s
                  /\ Relay.complete s = true /\ Relay.received s = chunks)
    /\ forall schedule s,
         Relay.exec schedule (Relay.start chunks) = Some s ->
         Relay.received s ++ Relay.held s ++ Relay.pending s = chunks
         /\ List.length chunks <=
            List.length (Relay.received s) + List.length (Relay.pending s)
            + Relay.highWaterMark
         /\ (Relay.complete s = true ->
             Relay.received s = chunks
             /\ Relay.bytes (Relay.received s) = Relay.bytes chunks)
         /\ (Relay.complete s = false -> exists a s', Relay.step a s = Some s')
         /\ List.length schedule + Relay.fuel s = 2 * List.length chunks + 2.
Proof.
  intros I N B R. exists (relayed_response googleResponse).
  split.
  - rewrite (handler_answered platform request context call googleResponse I N).
    now rewrite (relay_relayable googleResponse R).
  - split; [now rewrite relayed_body, B|].
    apply RelayFacts.relay.
Qed.

Lemma streamed_body_is_the_upstream_chunks_witness :
  In Sample.models_call
     (snd (run (handler (Sample.platform (Some Sample.answer))
                  (Sample.request "POST" Sample.models Sample.client_headers) tt)))
  /\ network (Sample.platform (Some Sample.answer)) Sample.models_call = Some Sample.answer
  /\ Response_body Sample.answer = Some (Network ["data: a"; "data: "; "b"])
  /\ relayable Sample.answer = true
  /\ exists response,
       run (handler (Sample.platform (Some Sample.answer))
              (Sample.request "POST" Sample.models Sample.client_headers) tt) =
       (Returns response, [Sample.models_call])
       /\ Relay.of_body (body response) =
          Some (Relay.start ["data: a"; "data: "; "b"])
       /\ (exists s,
              Relay.exec (Relay.eager ["data: a"; "data: "; "b"])
                (Relay.start ["data: a"; "data: "; "b"]) = Some s
              /\ Relay.complete s = true
              /\ Relay.received s = ["data: a"; "data: "; "b"])
       /\ forall schedule s,
            Relay.exec schedule (Relay.start ["data: a"; "data: "; "b"]) = Some s ->
            Relay.received s ++ Relay.held s ++ Relay.pending s =
            ["data: a"; "data: "; "b"]
            /\ List.length ["data: a"; "data: "; "b"] <=
               List.length (Relay.received s) + List.length (Relay.pending s)
               + Relay.highWaterMark
            /\ (Relay.complete s = true ->
                Relay.received s = ["data: a"; "data: "; "b"]
                /\ Relay.bytes (Relay.received s) =
                   Relay.bytes ["data: a"; "data: "; "b"])
            /\ (Relay.complete s = false -> exists a s', Relay.step a s = Some s')
            /\ List.length schedule + Relay.fuel s = 2 * 3 + 2.
Proof.
  split; [left; reflexivity|]. split; [reflexivity|]. split; [reflexivity|].
  split; [reflexivity|].
  apply (streamed_body_is_the_upstream_chunks (Sample.platform (Some Sample.answer))
           (Sample.request "POST" Sample.models Sample.client_headers) tt
           Sample.models_call Sample.answer ["data: a"; "data: "; "b"]).
  - left. reflexivity.
  - reflexivity.
  - reflexivity.
  - reflexivity.
Defined.

(** A run of the relay in which the upstream is ahead of the client. *)
Example relay_interleaved :
  Relay.exec [Relay.Pump; Relay.Read; Relay.Pump; Relay.Close; Relay.Read; Relay.Read]
    (Relay.start ["ab"; "c"]) =
  Some {| Relay.pending := []; Relay.held := []; Relay.closed := true;
          Relay.received := ["ab"; "c"]; Relay.complete := true |}
  /\ Relay.exec [Relay.Pump; Relay.Pump] (Relay.start ["ab"; "c"]) = None
  /\ Relay.bytes ["ab"; "c"] = "abc".
Proof. repeat split. Qed.

(** ** C4: the response headers *)

(** C4 does not hold as it is stated: two upstream [vary] headers come out as
    one; and what [get] reads of a repeated name changes when the last of its
    values is empty. *)
Lemma repeated_upstream_header_is_merged :
  fst (run (handler (Sample.platform (Some Sample.repeating))
              (Sample.request "POST" Sample.models Sample.client_headers) tt)) =
  Returns (relayed_response Sample.repeating)
  /\ Headers_values (headers Sample.repeating) "vary" = ["Origin"; "X-Origin"]
  /\ Headers_values (headers (relayed_response Sample.repeating)) "vary" =
     ["Origin, X-Origin"]
  /\ Headers_get (headers Sample.repeating) "x-custom" = Some "keep, "
  /\ Headers_get (headers (relayed_response Sample.repeating)) "x-custom" = Some "keep,"
  /\ ~ relays_as_stated (headers Sample.repeating)
         (headers (relayed_response Sample.repeating)).
Proof.
  repeat (split; [reflexivity|]).
  intros (_ & _ & F).
  assert (A : ~ In (lower "vary") removed_list).
  { simpl. intros [H | [H | [H | []]]]; discriminate. }
  assert (B : ~ In (lower "vary") (map fst CORS_HEADERS)).
  { simpl. intros [H | [H | [H | []]]]; discriminate. }
  specialize (F "vary" A B). discriminate.
Qed.

(** C4, amended. In the response to an upstream answer of which a response
    can be made (its status is in 200..599), [content-encoding],
    [content-length] and [alt-svc] are gone; the three CORS headers are there
    once each with their fixed values, whatever the upstream said; every other
    name is kept, the values of a repeated name other than [set-cookie] joined
    into one header with a comma and a space, and values without whitespace
    around them; so a name that comes once keeps its value as it is. *)
Theorem relayed_response_headers (platform : Platform) (request : Request)
        (context : NetlifyContext) (call : FetchCall) (googleResponse : Response) :
  In call (snd (run (handler platform request context))) ->
  network platform call = Some googleResponse ->
  relayable googleResponse = true ->
  exists response,
    run (handler platform request context) = (Returns response, [call])
    /\ (forall n, In (lower n) removed_list -> Headers_values (headers response) n = [])
    /\ (forall n v,
          In (lower n, v) CORS_HEADERS -> Headers_values (headers response) n = [v])
    /\ (forall n,
          ~ In (lower n) removed_list ->
          ~ In (lower n) (map fst CORS_HEADERS) ->
          Headers_values (headers response) n = merged (headers googleResponse) n)
    /\ (forall n v,
          ~ In (lower n) removed_list ->
          ~ In (lower n) (map fst CORS_HEADERS) ->
          Headers_values (headers googleResponse) n = [v] ->
          normalized v ->
          Headers_values (headers response) n = [v]).
Proof.
  intros I N Y. exists (relayed_response googleResponse).
  split.
  { rewrite (handler_answered platform request context call googleResponse I N).
    now rewrite (relay_relayable googleResponse Y). }
  rewrite relayed_headers_of.
  set (up := headers googleResponse).
  assert (Other : forall n,
             ~ In (lower n) removed_list ->
             ~ In (lower n) (map fst CORS_HEADERS) ->
             Headers_values (new_Headers (Headers_entries (relayed_headers up))) n =
             merged up n).
  { intros n R C. apply merged_again. rewrite relayed_headers_values.
    simpl in R, C.
    repeat match goal with
           | |- context [?k =? lower n] =>
               destruct (String.eqb_spec k (lower n)); [exfalso; tauto|]
           end.
    reflexivity. }
  split; [|split; [|split]].
  - intros n R. rewrite Headers_values_new, Headers_values_entries.
    unfold contribution. rewrite relayed_headers_values.
    simpl in R. destruct R as [<- | [<- | [<- | []]]]; reflexivity.
  - intros n v C. rewrite Headers_values_new, Headers_values_entries.
    unfold contribution. rewrite relayed_headers_values.
    simpl in C.
    destruct C as [C | [C | [C | []]]]; injection C as <- <-; reflexivity.
  - exact Other.
  - intros n v R C V W. rewrite (Other n R C). unfold merged. rewrite V.
    destruct (lower n =? "set-cookie"); simpl; now rewrite W.
Qed.

Lemma relayed_response_headers_witness :
  In Sample.models_call
     (snd (run (handler (Sample.platform (Some Sample.answer))
                  (Sample.request "POST" Sample.models Sample.client_headers) tt)))
  /\ network (Sample.platform (Some Sample.answer)) Sample.models_call = Some Sample.answer
  /\ relayable Sample.answer = true
  /\ exists response,
       run (handler (Sample.platform (Some Sample.answer))
              (Sample.request "POST" Sample.models Sample.client_headers) tt) =
       (Returns response, [Sample.models_call])
       /\ (forall n, In (lower n) removed_list -> Headers_values (headers response) n = [])
       /\ (forall n v,
             In (lower n, v) CORS_HEADERS -> Headers_values (headers response) n = [v])
       /\ (forall n,
             ~ In (lower n) removed_list ->
             ~ In (lower n) (map fst CORS_HEADERS) ->
             Headers_values (headers response) n = merged (headers Sample.answer) n)
       /\ (forall n v,
             ~ In (lower n) removed_list ->
             ~ In (lower n) (map fst CORS_HEADERS) ->
             Headers_values (headers Sample.answer) n = [v] ->
             normalized v ->
             Headers_values (headers response) n = [v]).
Proof.
  split; [left; reflexivity|]. split; [reflexivity|]. split; [reflexivity|].
  apply (relayed_response_headers (Sample.platform (Some Sample.answer))
           (Sample.request "POST" Sample.models Sample.client_headers) tt
           Sample.models_call Sample.answer).
  - left. reflexivity.
  - reflexivity.
  - reflexivity.
Defined.

(** ** C5: the preflight *)

(** C5. A request with method [OPTIONS] is answered at once: status 204, no
    body, exactly the three CORS headers with their values, and no upstream
    call. *)
Theorem preflight_short_circuit (platform : Platform) (request : Request)
        (context : NetlifyContext) :
  req_method request = "OPTIONS" ->
  exists response,
    run (handler platform request context) = (Returns response, [])
    /\ status response = 204
    /\ body response = None
    /\ headers response =
       [ ("access-control-allow-origin", "*");
         ("access-control-allow-methods", "GET, POST, PUT, DELETE, OPTIONS");
         ("access-control-allow-headers",
          "Content-Type, Authorization, x-goog-api-key, x-goog-api-client") ].
Proof.
  intros M. exists preflight_response.
  split; [now apply handler_preflight|].
  repeat split.
Qed.

Lemma preflight_short_circuit_witness :
  req_method (Sample.request "OPTIONS" Sample.root Sample.client_headers) = "OPTIONS"
  /\ exists response,
       run (handler (Sample.platform None)
              (Sample.request "OPTIONS" Sample.root Sample.client_headers) tt) =
       (Returns response, [])
       /\ status response = 204
       /\ body response = None
       /\ headers response =
          [ ("access-control-allow-origin", "*");
            ("access-control-allow-methods", "GET, POST, PUT, DELETE, OPTIONS");
            ("access-control-allow-headers",
             "Content-Type, Authorization, x-goog-api-key, x-goog-api-client") ].
Proof.
  split; [reflexivity|].
  apply (preflight_short_circuit (Sample.platform None)). reflexivity.
Defined.

(** ** C6: the root path *)

(** C6. A request other than [OPTIONS] for the path [/] is answered without an
    upstream call: status 200, content type [text/html;charset=UTF-8], a body
    that contains the title of the page, and the three CORS headers. *)
Theorem root_path_static_document (platform : Platform) (request : Request)
        (context : NetlifyContext) (url : URL) :
  req_method request <> "OPTIONS" ->
  URL_parse platform (req_url request) = Some url ->
  URL_pathname url = "/" ->
  exists response text,
    run (handler platform request context) = (Returns response, [])
    /\ status response = 200
    /\ Headers_values (headers response) "content-type" = ["text/html;charset=UTF-8"]
    /\ body response = Some (BodyText text)
    /\ includes "Google PaLM/Gemini API Proxy on Netlify Edge" text = true
    /\ Headers_values (headers response) "access-control-allow-origin" = ["*"]
    /\ Headers_values (headers response) "access-control-allow-methods" =
       ["GET, POST, PUT, DELETE, OPTIONS"]
    /\ Headers_values (headers response) "access-control-allow-headers" =
       ["Content-Type, Authorization, x-goog-api-key, x-goog-api-client"].
Proof.
  intros M U R. exists static_response, blank_html.
  split; [now apply (handler_static platform request context url)|].
  repeat split.
Qed.

Lemma root_path_static_document_witness :
  req_method (Sample.request "GET" Sample.root Sample.client_headers) <> "OPTIONS"
  /\ URL_parse (Sample.platform None) Sample.root = Some (Sample.proxy_url [EmptyString] [])
  /\ URL_pathname (Sample.proxy_url [EmptyString] []) = "/"
  /\ exists response text,
       run (handler (Sample.platform None)
              (Sample.request "GET" Sample.root Sample.client_headers) tt) =
       (Returns response, [])
       /\ status response = 200
       /\ Headers_values (headers response) "content-type" = ["text/html;charset=UTF-8"]
       /\ body response = Some (BodyText text)
       /\ includes "Google PaLM/Gemini API Proxy on Netlify Edge" text = true
       /\ Headers_values (headers response) "access-control-allow-origin" = ["*"]
       /\ Headers_values (headers response) "access-control-allow-methods" =
          ["GET, POST, PUT, DELETE, OPTIONS"]
       /\ Headers_values (headers response) "access-control-allow-headers" =
          ["Content-Type, Authorization, x-goog-api-key, x-goog-api-client"].
Proof.
  split; [discriminate|]. split; [reflexivity|]. split; [reflexivity|].
  apply (root_path_static_document (Sample.platform None) _ tt
           (Sample.proxy_url [EmptyString] [])).
  - discriminate.
  - reflexivity.
  - reflexivity.
Defined.

(** ** C7: status and status text *)

(** C7 does not hold as it is stated: an upstream answer with the status 999
    and no body is not passed on; the [Response] constructor of line 116 takes
    no status outside 200..599 and throws, after the upstream call. *)
Lemma status_outside_the_range_is_not_passed :
  run (handler (Sample.platform (Some Sample.unassigned))
         (Sample.request "POST" Sample.models Sample.client_headers) tt) =
  (Throws (InvalidStatus 999), [Sample.models_call])
  /\ status Sample.unassigned = 999
  /\ Response_body Sample.unassigned = None
  /\ ~ passes_as_stated (Sample.platform (Some Sample.unassigned))
         (Sample.request "POST" Sample.models Sample.client_headers) tt.
Proof.
  split; [reflexivity|]. split; [reflexivity|]. split; [reflexivity|].
  intros F.
  destruct (F Sample.models_call Sample.unassigned (or_introl eq_refl) eq_refl)
    as (response & E & _).
  discriminate.
Qed.

(** C7, amended. When the upstream answers and a response can be made of the
    answer (its status is in 200..599, and, as for every answer of [fetch], its
    status text is a reason phrase and it has no body with a null body
    status), the status and the status text of the answer are those of the
    response, with a body and without; without an upstream body the response
    has no body, with one its body is the stream piped from it. Of any other
    answer no response is made: the invocation fails after the upstream call,
    for a status outside 200..599 with the error of that status. *)
Theorem status_passes_through (platform : Platform) (request : Request)
        (context : NetlifyContext) (call : FetchCall) (googleResponse : Response) :
  In call (snd (run (handler platform request context))) ->
  network platform call = Some googleResponse ->
  (relayable googleResponse = true ->
   exists response,
     run (handler platform request context) = (Returns response, [call])
     /\ status response = status googleResponse
     /\ statusText response = statusText googleResponse
     /\ (Response_body googleResponse = None -> body response = None)
     /\ (forall upstream_body,
           Response_body googleResponse = Some upstream_body ->
           body response = Some (BodyStream (Piped upstream_body))))
  /\ (relayable googleResponse = false ->
      exists e, run (handler platform request context) = (Throws e, [call]))
  /\ (status googleResponse < 200 \/ 599 < status googleResponse ->
      run (handler platform request context) =
      (Throws (InvalidStatus (status googleResponse)), [call])).
Proof.
  intros I N.
  rewrite (handler_answered platform request context call googleResponse I N).
  split; [|split].
  - intros R. exists (relayed_response googleResponse).
    split; [now rewrite (relay_relayable googleResponse R)|].
    split; [reflexivity|]. split; [reflexivity|].
    rewrite relayed_body. split.
    + now intros ->.
    + now intros b ->.
  - intros R. destruct (relay_throws googleResponse R) as [e E].
    exists e. now rewrite E.
  - intros S. now rewrite (relay_status googleResponse S).
Qed.

Lemma status_passes_through_witness :
  In Sample.models_call
     (snd (run (handler (Sample.platform (Some Sample.answer))
                  (Sample.request "POST" Sample.models Sample.client_headers) tt)))
  /\ network (Sample.platform (Some Sample.answer)) Sample.models_call = Some Sample.answer
  /\ relayable Sample.answer = true
  /\ (relayable Sample.answer = true ->
      exists response,
        run (handler (Sample.platform (Some Sample.answer))
               (Sample.request "POST" Sample.models Sample.client_headers) tt) =
        (Returns response, [Sample.models_call])
        /\ status response = 404
        /\ statusText response = "Not Found"
        /\ (Response_body Sample.answer = None -> body response = None)
        /\ (forall upstream_body,
              Response_body Sample.answer = Some upstream_body ->
              body response = Some (BodyStream (Piped upstream_body))))
  /\ (relayable Sample.answer = false ->
      exists e,
        run (handler (Sample.platform (Some Sample.answer))
               (Sample.request "POST" Sample.models Sample.client_headers) tt) =
        (Throws e, [Sample.models_call]))
  /\ (status Sample.answer < 200 \/ 599 < status Sample.answer ->
      run (handler (Sample.platform (Some Sample.answer))
             (Sample.request "POST" Sample.models Sample.client_headers) tt) =
      (Throws (InvalidStatus (status Sample.answer)), [Sample.models_call])).
Proof.
  split; [left; reflexivity|]. split; [reflexivity|]. split; [reflexivity|].
  apply (status_passes_through (Sample.platform (Some Sample.answer))
           (Sample.request "POST" Sample.models Sample.client_headers) tt
           Sample.models_call Sample.answer).
  - left. reflexivity.
  - reflexivity.
Defined.

(** ** C8: the four outcomes *)

(** C8 does not hold as it is stated: an invocation whose upstream call fails
    ends in none of the four outcomes. *)
Lemma unreachable_upstream_ends_in_none :
  run (handler (Sample.platform None)
         (Sample.request "POST" Sample.models Sample.client_headers) tt) =
  (Throws (FetchFailed Sample.models_call), [Sample.models_call])
  /\ ~ ends_as_stated (Sample.platform None)
         (Sample.request "POST" Sample.models Sample.client_headers).
Proof.
  split; [reflexivity|].
  intros (terminal & response & E).
  apply (ends_in_run _ _ tt) in E. discriminate.
Qed.

(** C8, amended. An invocation that returns a response ends in exactly one of
    the four outcomes, and an invocation that fails ends in none (the target
    URL cannot be built, the upstream call fails, or no response can be made
    of the upstream answer); the conditions are taken in their order:
    [OPTIONS] gives the preflight response whatever the path, then the root
    path gives the static document, then an upstream answer without a body
    gives a response without one, and one with a body a streamed response. *)
Theorem four_outcomes (platform : Platform) (request : Request)
        (context : NetlifyContext) :
  match fst (run (handler platform request context)) with
  | Returns response =>
      exists terminal,
        ends_in platform request terminal response
        /\ forall terminal' response',
             ends_in platform request terminal' response' -> terminal' = terminal
  | Throws _ =>
      forall terminal response, ~ ends_in platform request terminal response
  end.
Proof.
  destruct (fst (run (handler platform request context))) as [response | e] eqn:E.
  - destruct (returns_ends_in platform request context response E) as [terminal T].
    exists terminal. split; [exact T|].
    intros terminal' response' T'. exact (ends_in_exclusive _ _ _ _ _ _ T' T).
  - intros terminal response T.
    apply (ends_in_run _ _ context) in T. congruence.
Qed.

(** Each of the four outcomes occurs, the preflight also at the root path. *)
Example outcomes_occur :
  ends_in (Sample.platform None)
    (Sample.request "OPTIONS" Sample.root Sample.client_headers)
    Preflight preflight_response
  /\ ends_in (Sample.platform None)
       (Sample.request "GET" Sample.root Sample.client_headers)
       StaticDocument static_response
  /\ ends_in (Sample.platform (Some Sample.repeating))
       (Sample.request "POST" Sample.models Sample.client_headers)
       HeadersOnly (relayed_response Sample.repeating)
  /\ ends_in (Sample.platform (Some Sample.answer))
       (Sample.request "POST" Sample.models Sample.client_headers)
       Streamed (relayed_response Sample.answer).
Proof.
  split; [now constructor|].
  split; [apply (E_static _ _ (Sample.proxy_url [EmptyString] []));
          [discriminate | reflexivity | reflexivity]|].
  split.
  - apply (E_headers_only _ _ Sample.models_url Sample.models_target Sample.repeating);
      try reflexivity; discriminate.
  - apply (E_streamed _ _ Sample.models_url Sample.models_target Sample.answer _
             (Network ["data: a"; "data: "; "b"]));
      try reflexivity; discriminate.
Qed.

(** ** C9: failures *)

(** C9. The handler catches nothing. When the upstream call fails, the
    exception leaves the handler after that one call, and no response is made.
    When [new URL(request.url)] fails, the exception leaves the handler before
    any call, and no response is made; the handler evaluates it for every
    request but a preflight, which it answers before. The [url] of a request
    that the platform hands to the handler is a serialized URL: for a request
    that is [receivable], preflight or not, the claim holds as it is
    stated. *)
Theorem failures_propagate (platform : Platform) (request : Request)
        (context : NetlifyContext) :
  (forall call,
     In call (snd (run (handler platform request context))) ->
     network platform call = None ->
     run (handler platform request context) = (Throws (FetchFailed call), [call]))
  /\ (req_method request <> "OPTIONS" ->
      URL_parse platform (req_url request) = None ->
      run (handler platform request context) =
      (Throws (InvalidURL (req_url request)), []))
  /\ (receivable platform request -> fails_as_stated platform request context).
Proof.
  assert (F : forall call,
             In call (snd (run (handler platform request context))) ->
             network platform call = None ->
             run (handler platform request context) = (Throws (FetchFailed call), [call])).
  { intros call I N.
    destruct (handler_calls platform request context call I)
      as (url & target & M & U & R & T & ->).
    rewrite (handler_upstream platform request context url target M U R T).
    now rewrite N. }
  split; [exact F|]. split.
  - apply handler_invalid_url.
  - intros [url U]. split.
    + intros N. congruence.
    + intros call I N. exists (FetchFailed call), [call]. now apply F.
Qed.

(** The failures occur: of the upstream call; of [new URL(pathname, base)] on
    the path [//], which names an empty host; and of the [Response]
    constructor on an upstream status above 599. *)
Example failures_occur :
  run (handler (Sample.platform None)
         (Sample.request "POST" Sample.models Sample.client_headers) tt) =
  (Throws (FetchFailed Sample.models_call), [Sample.models_call])
  /\ run (handler (Sample.platform None)
            (Sample.request "GET" Sample.empty_authority Sample.client_headers) tt) =
     (Throws (InvalidURL "//"), [])
  /\ run (handler (Sample.platform (Some Sample.overflowing))
            (Sample.request "GET" Sample.models Sample.client_headers) tt) =
     (Throws (InvalidStatus 600),
      [ {| fetch_url := fetch_url Sample.models_call;
           fetch_body := Some (Network ["{}"]);
           fetch_method := "GET";
           fetch_headers := fetch_headers Sample.models_call |} ]).
Proof. repeat split. Qed.

(** ** C10: the headers that are not forwarded do not interfere *)

(** C10. Two requests with the same method, URL and body, whose headers [get]
    reads alike at the four names of the allow-list, make the same upstream
    call (target URL, method, headers and body), whatever their other headers
    are; so the whole run is the same. *)
Theorem filtered_headers_do_not_interfere (platform : Platform)
        (request1 request2 : Request) (context : NetlifyContext) :
  req_method request1 = req_method request2 ->
  req_url request1 = req_url request2 ->
  req_body request1 = req_body request2 ->
  (forall k, In k allow_list ->
             Headers_get (req_headers request1) k = Headers_get (req_headers request2) k) ->
  snd (run (handler platform request1 context)) =
  snd (run (handler platform request2 context))
  /\ run (handler platform request1 context) = run (handler platform request2 context).
Proof.
  intros M U B G.
  assert (E : run (handler platform request1 context) =
              run (handler platform request2 context)); [|now rewrite E].
  assert (C : forall url target,
             upstream_call request1 url target = upstream_call request2 url target).
  { intros url target. unfold upstream_call.
    now rewrite M, B, (pickHeaders_agree _ _ G). }
  destruct (branches platform request1)
    as [M1 | M1 U1 | url M1 U1 R | url M1 U1 R T | url target M1 U1 R T].
  - rewrite !handler_preflight; congruence.
  - rewrite !handler_invalid_url; congruence.
  - rewrite !(handler_static _ _ _ url); congruence.
  - rewrite !(handler_invalid_target _ _ _ url); congruence.
  - rewrite !(handler_upstream _ _ _ url target); try congruence.
    now rewrite C.
Qed.

Lemma filtered_headers_do_not_interfere_witness :
  Sample.client_headers <> Sample.other_headers
  /\ snd (run (handler (Sample.platform (Some Sample.answer))
                 (Sample.request "POST" Sample.models Sample.client_headers) tt)) =
     snd (run (handler (Sample.platform (Some Sample.answer))
                 (Sample.request "POST" Sample.models Sample.other_headers) tt))
  /\ run (handler (Sample.platform (Some Sample.answer))
            (Sample.request "POST" Sample.models Sample.client_headers) tt) =
     run (handler (Sample.platform (Some Sample.answer))
            (Sample.request "POST" Sample.models Sample.other_headers) tt).
Proof.
  split; [discriminate|].
  apply (filtered_headers_do_not_interfere
           (Sample.platform (Some Sample.answer))
           (Sample.request "POST" Sample.models Sample.client_headers)
           (Sample.request "POST" Sample.models Sample.other_headers) tt);
    try reflexivity.
  intros k [<- | [<- | [<- | [<- | []]]]]; reflexivity.
Defined.


(** * More about [pickHeaders] *)

Lemma Headers_has_app (h1 h2 : Headers) (name : string) :
  Headers_has (h1 ++ h2) name = Headers_has h1 name || Headers_has h2 name.
Proof. unfold Headers_has. apply existsb_app. Qed.

Lemma set_in_list_last (acc : Headers) (n x y : string) :
  Headers_has acc n = false ->
  set_in_list (acc ++ [(n, x)]) n y = acc ++ [(n, y)].
Proof.
  induction acc as [|e acc IH]; simpl.
  - intros _. unfold name_is. simpl. now rewrite String.eqb_refl.
  - unfold Headers_has. simpl. intros H. apply orb_false_iff in H. destruct H as [E H].
    rewrite E. f_equal. now apply IH.
Qed.

Lemma Headers_set_new (acc : Headers) (n v : string) :
  Headers_has acc n = false -> Headers_set acc n v = acc ++ [(n, normalize v)].
Proof. intros H. unfold Headers_set. now rewrite H. Qed.

Lemma Headers_set_again (acc : Headers) (n x v : string) :
  Headers_has acc n = false ->
  Headers_set (acc ++ [(n, x)]) n v = acc ++ [(n, normalize v)].
Proof.
  intros H. unfold Headers_set.
  rewrite Headers_has_app, H. simpl. unfold name_is. simpl.
  rewrite String.eqb_refl. simpl. now apply set_in_list_last.
Qed.

(** The turns of the loop for one name, which [keys()] yields once, or, for
    [set-cookie], once for every value. *)
Lemma pick_repeat (h : Headers) (keys : list Key) (n : string) (m : nat) :
  forall acc,
    Headers_has h n = true ->
    Headers_has acc n = false ->
    fold_left (pick h keys) (repeat n (S m)) acc =
    if matched keys n then acc ++ [(n, picked_value h n)] else acc.
Proof.
  intros acc H A. unfold matched.
  destruct (existsb (key_matches n) keys) eqn:E.
  - assert (P : forall x, pick h keys (acc ++ [(n, x)]) n = acc ++ [(n, picked_value h n)]).
    { intros x. unfold pick. rewrite E, Headers_get_values, H.
      now apply Headers_set_again. }
    assert (F : forall k x, fold_left (pick h keys) (repeat n k) (acc ++ [(n, x)]) =
                            match k with
                            | 0 => acc ++ [(n, x)]
                            | S _ => acc ++ [(n, picked_value h n)]
                            end).
    { induction k as [|k IH]; intros x; simpl; [reflexivity|].
      rewrite P, IH. now destruct k. }
    simpl. unfold pick at 2. rewrite E, Headers_get_values, H.
    rewrite (Headers_set_new acc n _ A). fold (picked_value h n).
    rewrite F. now destruct m.
  - assert (F : forall k, fold_left (pick h keys) (repeat n k) acc = acc).
    { induction k as [|k IH]; simpl; [reflexivity|].
      unfold pick at 2. now rewrite E. }
    apply F.
Qed.

Lemma combined_keys (h : Headers) (n : string) :
  Headers_has h n = true ->
  exists m, map fst (combined h n) = repeat n (S m).
Proof.
  intros H. unfold combined. destruct (n =? "set-cookie").
  - apply Headers_has_true in H.
    destruct (Headers_values h n) as [|v vs]; [congruence|].
    exists (List.length vs). simpl. f_equal.
    induction vs as [|w vs IH]; simpl; [reflexivity | now rewrite IH].
  - rewrite Headers_get_values, H. now exists 0.
Qed.

Lemma pick_names (h : Headers) (keys : list Key) (names : list string) :
  forall acc,
    NoDup names ->
    (forall n, In n names -> lower n = n /\ Headers_has h n = true) ->
    (forall n, In n names -> Headers_has acc n = false) ->
    fold_left (pick h keys) (map fst (flat_map (combined h) names)) acc =
    acc ++ map (fun n => (n, picked_value h n)) (filter (matched keys) names).
Proof.
  induction names as [|n names IH]; intros acc D L A.
  - simpl. now rewrite app_nil_r.
  - inversion D as [|? ? N D']; subst.
    destruct (L n (or_introl eq_refl)) as [Ln Hn].
    destruct (combined_keys h n Hn) as [m K].
    cbn [flat_map]. rewrite map_app, fold_left_app, K.
    rewrite (pick_repeat h keys n m acc Hn (A n (or_introl eq_refl))).
    assert (A' : forall x n', In n' names -> Headers_has (acc ++ [(n, x)]) n' = false).
    { intros x n' I. rewrite Headers_has_app, (A n' (or_intror I)). simpl.
      unfold name_is. simpl. rewrite Ln, (proj1 (L n' (or_intror I))), orb_false_r.
      apply String.eqb_neq. intros ->. contradiction. }
    cbn [filter]. destruct (matched keys n).
    + rewrite IH; [now rewrite <- app_assoc | exact D' | | apply A'].
      intros n' I. apply L. now right.
    + apply IH; [exact D' | | ].
      * intros n' I. apply L. now right.
      * intros n' I. apply A. now right.
Qed.

Lemma sorted_names_facts (h : Headers) (n : string) :
  In n (sorted_names h) -> lower n = n /\ Headers_has h n = true.
Proof.
  intros I. pose proof (sorted_names_lower h n I) as L. split; [exact L|].
  apply sorted_names_has. now rewrite L.
Qed.

(** The [selection] in closed form. *)
Lemma selection_closed_form (headers : Headers) (keys : list Key) :
  selection headers keys =
  map (fun name => (name, picked_value headers name))
      (filter (matched keys) (sorted_names headers)).
Proof.
  rewrite selection_fold. unfold Headers_keys, Headers_entries.
  rewrite (pick_names headers keys (sorted_names headers) []).
  - reflexivity.
  - apply sorted_NoDup, sorted_names_sorted.
  - apply sorted_names_facts.
  - reflexivity.
Qed.

Lemma picked_names (headers : Headers) (keys : list Key) :
  map fst (selection headers keys) = filter (matched keys) (sorted_names headers).
Proof.
  rewrite selection_closed_form, map_map. apply map_id.
Qed.

Lemma sort_names_sorted_id (names : list string) :
  StronglySorted name_lt names -> sort_names names = names.
Proof.
  intros S. apply sorted_ext; [|exact S|].
  - apply sort_names_sorted. now apply sorted_NoDup.
  - intros n. apply sort_names_In.
Qed.

(** The names that iterating picked headers yields are the picked names. *)
Lemma sorted_names_picked (headers : Headers) (keys : list Key) :
  sorted_names (selection headers keys) =
  filter (matched keys) (sorted_names headers).
Proof.
  pose proof (sorted_filter (matched keys) _ (sorted_names_sorted headers)) as S.
  unfold sorted_names at 1.
  rewrite <- (map_map fst lower), picked_names.
  rewrite (map_ext_in lower (fun n => n)), map_id.
  - rewrite nodup_fixed_point by now apply sorted_NoDup.
    now apply sort_names_sorted_id.
  - intros n I. apply filter_In in I. destruct I as [I _].
    now apply sorted_names_lower in I.
Qed.

Lemma picked_value_picked (headers : Headers) (keys : list Key) (name : string) :
  In name (filter (matched keys) (sorted_names headers)) ->
  picked_value (selection headers keys) name = picked_value headers name.
Proof.
  intros I. apply filter_In in I. destruct I as [I A].
  destruct (sorted_names_facts headers name I) as [L H].
  unfold picked_value at 1. rewrite selection_values, L.
  unfold matched in A. rewrite A, H. simpl.
  apply normalize_idem.
Qed.

(** Picking from picked headers. *)
Lemma selection_twice (headers : Headers) (keys1 keys2 : list Key) :
  selection (selection headers keys1) keys2 =
  map (fun name => (name, picked_value headers name))
      (filter (matched keys2) (filter (matched keys1) (sorted_names headers))).
Proof.
  rewrite (selection_closed_form (selection headers keys1) keys2).
  rewrite sorted_names_picked. apply map_ext_in.
  intros n I. f_equal. apply picked_value_picked.
  apply filter_In in I. apply I.
Qed.

Lemma filter_filter_comm {A : Type} (f g : A -> bool) (l : list A) :
  filter f (filter g l) = filter g (filter f l).
Proof.
  induction l as [|x l IH]; simpl; [reflexivity|].
  destruct (f x) eqn:F, (g x) eqn:G; simpl; rewrite ?F, ?G, IH; reflexivity.
Qed.

Lemma filter_filter_and {A : Type} (f g : A -> bool) (l : list A) :
  filter f (filter g l) = filter (fun x => g x && f x) l.
Proof.
  induction l as [|x l IH]; simpl; [reflexivity|].
  destruct (g x) eqn:G; simpl; rewrite IH; reflexivity.
Qed.

Lemma filter_filter_same {A : Type} (f : A -> bool) (l : list A) :
  filter f (filter f l) = filter f l.
Proof.
  induction l as [|x l IH]; simpl; [reflexivity|].
  destruct (f x) eqn:F; simpl; rewrite ?F, IH; reflexivity.
Qed.

Lemma sorted_names_ext (h1 h2 : Headers) :
  (forall name, Headers_get h1 name = Headers_get h2 name) ->
  sorted_names h1 = sorted_names h2.
Proof.
  intros G.
  assert (N : forall h n, In n (sorted_names h) <-> lower n = n /\ Headers_get h n <> None).
  { intros h n. rewrite Headers_get_values. split.
    - intros I. destruct (sorted_names_facts h n I) as [L H].
      rewrite H. split; [exact L | discriminate].
    - intros [L H]. rewrite <- L. apply sorted_names_has.
      destruct (Headers_has h n); [reflexivity | congruence]. }
  apply sorted_ext; try apply sorted_names_sorted.
  intros n. rewrite !N, (G n). reflexivity.
Qed.

Lemma picked_value_ext (h1 h2 : Headers) (name : string) :
  Headers_get h1 name = Headers_get h2 name ->
  Headers_has h1 name = true ->
  picked_value h1 name = picked_value h2 name.
Proof.
  rewrite !Headers_get_values. intros G H. rewrite H in G.
  destruct (Headers_has h2 name); [|discriminate].
  injection G as G. unfold picked_value. now rewrite G.
Qed.

(** ** Keys with a state *)

Lemma key_test_reset (key : string) (k : Key) :
  reset (snd (key_test key k)) = reset k.
Proof.
  destruct k as [s | r]; [reflexivity|].
  unfold key_test. destruct (RegExp_test r key) as [matches r'] eqn:E.
  cbn [snd reset]. f_equal. unfold RegExp_test in E.
  destruct (re_global r || re_sticky r).
  - destruct (String.length key <? re_lastIndex r)%nat;
      [injection E as <- <-; reflexivity|].
    destruct (re_match r key (re_lastIndex r)); injection E as <- <-; reflexivity.
  - now injection E as <- <-.
Qed.

Lemma keys_some_reset (key : string) (keys : list Key) :
  map reset (snd (keys_some key keys)) = map reset keys.
Proof.
  induction keys as [|k keys IH]; [reflexivity|].
  cbn [keys_some]. pose proof (key_test_reset key k) as T.
  destruct (key_test key k) as [matches k']. cbn [snd] in T.
  destruct matches.
  - cbn [snd map]. now rewrite T.
  - destruct (keys_some key keys) as [matches' rest']. cbn [snd map] in IH |- *.
    now rewrite T, IH.
Qed.

Lemma may_match_same (name : string) (k k' : Key) :
  reset k = reset k' -> may_match name k -> may_match name k'.
Proof.
  intros E (k0 & R & M). exists k0. split; [congruence | exact M].
Qed.

Lemma Exists_may_match_same (name : string) (keys : list Key) :
  forall keys',
    map reset keys = map reset keys' ->
    Exists (may_match name) keys -> Exists (may_match name) keys'.
Proof.
  induction keys as [|k keys IH]; intros [|k' keys'] E X; try discriminate.
  - inversion X.
  - cbn [map] in E. injection E as E1 E2.
    inversion X as [? ? M | ? ? X']; subst.
    + left. now apply (may_match_same name k k').
    + right. now apply IH.
Qed.

Lemma keys_some_may_match (key : string) (keys : list Key) :
  fst (keys_some key keys) = true -> Exists (may_match key) keys.
Proof.
  induction keys as [|k keys IH]; [discriminate|].
  cbn [keys_some]. destruct (key_test key k) as [matches k'] eqn:T.
  destruct matches.
  - intros _. left. exists k. split; [reflexivity|].
    unfold key_matches. now rewrite T.
  - destruct (keys_some key keys) as [matches' rest']. cbn [fst] in IH |- *.
    intros E. right. now apply IH.
Qed.

Lemma may_match_stateless (name : string) (k : Key) :
  stateless k = true -> may_match name k -> key_matches name k = true.
Proof.
  intros S (k0 & R & M). destruct k as [s | r], k0 as [s0 | r0]; try discriminate.
  - injection R as ->. exact M.
  - cbn [reset] in R. injection R as G Y P.
    cbn [stateless] in S. apply negb_true_iff in S.
    unfold key_matches, key_test, RegExp_test in M |- *.
    rewrite G, Y, P, S in M. rewrite S. exact M.
Qed.

(** One turn of the loop for a name that the headers have. *)
Lemma turn_has (h : Headers) (acc : Headers) (keys : list Key) (n : string) :
  Headers_has h n = true ->
  turn h (acc, keys) n =
  (if fst (keys_some n keys)
   then Headers_set acc n (String.concat ", " (Headers_values h n))
   else acc,
   snd (keys_some n keys)).
Proof.
  intros H. unfold turn. rewrite Headers_get_values, H.
  now destruct (keys_some n keys) as [[|] keys'].
Qed.

(** The turns of the loop for one name, once it is picked: it stays, with the
    same value. *)
Lemma turn_repeat_kept (h : Headers) (n : string) (acc : Headers) :
  Headers_has h n = true ->
  Headers_has acc n = false ->
  forall m keys,
  exists keys',
    fold_left (turn h) (repeat n m) (acc ++ [(n, picked_value h n)], keys) =
    (acc ++ [(n, picked_value h n)], keys')
    /\ map reset keys' = map reset keys.
Proof.
  intros H A. induction m as [|m IH]; intros keys.
  - exists keys. now split.
  - cbn [repeat fold_left]. rewrite (turn_has h _ keys n H).
    pose proof (keys_some_reset n keys) as R.
    destruct (keys_some n keys) as [matches keys1]. cbn [fst snd] in R |- *.
    destruct (IH keys1) as (keys' & E & R').
    exists keys'. split; [|now rewrite R', R].
    destruct matches; [|exact E].
    rewrite (Headers_set_again acc n _ _ A). exact E.
Qed.

(** The turns of the loop for one name, which [keys()] yields once, or, for
    [set-cookie], once for every value: the name is picked, once, when one of
    the tests answers true. *)
Lemma turn_repeat (h : Headers) (n : string) (acc : Headers) :
  Headers_has h n = true ->
  Headers_has acc n = false ->
  forall m keys,
  exists (picks : bool) keys',
    fold_left (turn h) (repeat n m) (acc, keys) =
    (if picks then acc ++ [(n, picked_value h n)] else acc, keys')
    /\ map reset keys' = map reset keys
    /\ (picks = true -> Exists (may_match n) keys).
Proof.
  intros H A. induction m as [|m IH]; intros keys.
  - exists false, keys. repeat split. discriminate.
  - cbn [repeat fold_left]. rewrite (turn_has h _ keys n H).
    pose proof (keys_some_reset n keys) as R.
    pose proof (keys_some_may_match n keys) as Y.
    destruct (keys_some n keys) as [matches keys1]. cbn [fst snd] in R, Y |- *.
    destruct matches.
    + rewrite (Headers_set_new acc n _ A). fold (picked_value h n).
      destruct (turn_repeat_kept h n acc H A m keys1) as (keys' & E & R').
      exists true, keys'. split; [exact E|]. split; [now rewrite R', R|].
      intros _. now apply Y.
    + destruct (IH keys1) as (picks & keys' & E & R' & X).
      exists picks, keys'. split; [exact E|]. split; [now rewrite R', R|].
      intros P. apply (Exists_may_match_same n keys1); [exact R | now apply X].
Qed.

(** The loop over names in ascending order: the names picked are among them,
    in their order, each once and each matched by a key in one of its
    states. *)
Lemma turn_names (h : Headers) (names : list string) :
  forall acc keys,
    StronglySorted name_lt names ->
    (forall n, In n names -> lower n = n /\ Headers_has h n = true) ->
    (forall n, In n names -> Headers_has acc n = false) ->
    exists chosen keys',
      fold_left (turn h) (map fst (flat_map (combined h) names)) (acc, keys) =
      (acc ++ map (fun n => (n, picked_value h n)) chosen, keys')
      /\ map reset keys' = map reset keys
      /\ StronglySorted name_lt chosen
      /\ (forall n, In n chosen -> In n names /\ Exists (may_match n) keys).
Proof.
  induction names as [|n names IH]; intros acc keys Sorted L A.
  - exists [], keys. cbn. rewrite app_nil_r. repeat split; try constructor; contradiction.
  - inversion Sorted as [|? ? S' F]; subst. rewrite Forall_forall in F.
    destruct (L n (or_introl eq_refl)) as [Ln Hn].
    destruct (combined_keys h n Hn) as [m K].
    cbn [flat_map]. rewrite map_app, fold_left_app, K.
    destruct (turn_repeat h n acc Hn (A n (or_introl eq_refl)) (S m) keys)
      as (picks & keys1 & E & R & X).
    rewrite E.
    assert (L' : forall n', In n' names -> lower n' = n' /\ Headers_has h n' = true).
    { intros n' I. apply L. now right. }
    assert (A' : forall n', In n' names ->
                            Headers_has (if picks then acc ++ [(n, picked_value h n)] else acc)
                              n' = false).
    { intros n' I. destruct picks; [|apply A; now right].
      rewrite Headers_has_app, (A n' (or_intror I)). simpl.
      unfold name_is. simpl. rewrite Ln, (proj1 (L n' (or_intror I))), orb_false_r.
      apply String.eqb_neq. intros ->.
      specialize (F n' I). unfold name_lt in F. now rewrite ltb_irrefl in F. }
    destruct (IH _ keys1 S' L' A') as (chosen & keys' & E' & R' & C & P).
    assert (P' : forall n', In n' chosen -> In n' (n :: names) /\ Exists (may_match n') keys).
    { intros n' I. destruct (P n' I) as [I' X']. split; [now right|].
      now apply (Exists_may_match_same n' keys1). }
    destruct picks.
    + exists (n :: chosen), keys'. rewrite E', <- app_assoc. cbn [map app].
      split; [reflexivity|]. split; [now rewrite R', R|]. split.
      * constructor; [exact C|]. apply Forall_forall. intros n' I.
        apply F. now apply P.
      * intros n' [<- | I]; [|now apply P'].
        split; [now left | now apply X].
    + exists chosen, keys'. split; [exact E'|]. split; [now rewrite R', R|].
      split; [exact C | exact P'].
Qed.

(** What [pickHeaders] returns, whatever the keys are. *)
Lemma pickHeaders_chosen (headers : Headers) (keys : list Key) :
  exists chosen keys',
    pickHeaders headers keys =
    (map (fun n => (n, picked_value headers n)) chosen, keys')
    /\ map reset keys' = map reset keys
    /\ StronglySorted name_lt chosen
    /\ (forall n, In n chosen -> In n (sorted_names headers) /\ Exists (may_match n) keys).
Proof.
  rewrite pickHeaders_turns. unfold Headers_keys, Headers_entries.
  apply (turn_names headers (sorted_names headers) [] keys).
  - apply sorted_names_sorted.
  - apply sorted_names_facts.
  - reflexivity.
Qed.


Lemma turns_no_keys (h : Headers) (names : list string) :
  forall acc, fold_left (turn h) names (acc, []) = (acc, []).
Proof.
  induction names as [|n names IH]; intros acc; [reflexivity|].
  cbn [fold_left]. unfold turn at 2. cbn [keys_some]. apply IH.
Qed.

(** A regular expression with the flag [g] keeps its place from one name to
    the next: [/^x-/g] passes over every other name that [/^x-/] picks; and
    after it has picked [x-a], it picks nothing from the picked headers. *)
Example global_regexp_keeps_its_place :
  pickHeaders Inputs.x_headers [KRegExp (Inputs.x_prefix true)] =
  ([("x-a", "1"); ("x-c", "3")], [KRegExp (Inputs.x_prefix true)])
  /\ pickHeaders Inputs.x_headers [KRegExp (Inputs.x_prefix false)] =
     ([("x-a", "1"); ("x-b", "2"); ("x-c", "3")], [KRegExp (Inputs.x_prefix false)])
  /\ pickHeaders [("X-A", "1")] [KRegExp (Inputs.x_prefix true)] =
     ([("x-a", "1")], [KRegExp (with_lastIndex (Inputs.x_prefix true) 2)])
  /\ pickHeaders [("x-a", "1")] [KRegExp (with_lastIndex (Inputs.x_prefix true) 2)] =
     ([], [KRegExp (Inputs.x_prefix true)])
  /\ stateless (KRegExp (Inputs.x_prefix true)) = false
  /\ stateless (KRegExp (Inputs.x_prefix false)) = true.
Proof.
  split; [reflexivity|]. split; [reflexivity|]. split; [reflexivity|].
  split; [reflexivity|]. split; reflexivity.
Qed.

(** X1. What [pickHeaders] returns for keys that are strings or regular
    expressions without the flags [g] and [y]: the names of the headers that a
    key matches, lowercased, in ascending byte order, each once, with the
    value that [get] reads of it, trimmed; and the keys are left as they
    were. *)
Theorem pickHeaders_result (headers : Headers) (keys : list Key) :
  forallb stateless keys = true ->
  pickHeaders headers keys =
  (map (fun name => (name, picked_value headers name))
       (filter (matched keys) (sorted_names headers)),
   keys).
Proof.
  intros S. rewrite (pickHeaders_stateless headers keys S).
  now rewrite selection_closed_form.
Qed.

Lemma pickHeaders_result_witness :
  forallb stateless [KString "y"; KRegExp (Inputs.x_prefix false)] = true
  /\ pickHeaders Inputs.x_headers [KString "y"; KRegExp (Inputs.x_prefix false)] =
     (map (fun name => (name, picked_value Inputs.x_headers name))
          (filter (matched [KString "y"; KRegExp (Inputs.x_prefix false)])
                  (sorted_names Inputs.x_headers)),
      [KString "y"; KRegExp (Inputs.x_prefix false)])
  /\ filter (matched [KString "y"; KRegExp (Inputs.x_prefix false)])
            (sorted_names Inputs.x_headers) = ["x-a"; "x-b"; "x-c"; "y"].
Proof.
  split; [reflexivity|]. split; [|reflexivity].
  apply (pickHeaders_result Inputs.x_headers
           [KString "y"; KRegExp (Inputs.x_prefix false)]).
  reflexivity.
Defined.

(** X2. Whatever the keys are and whatever state they are in, the names of the
    picked headers are in strictly ascending byte order, so no name comes
    twice; each is lowercase, a name of the headers picked from, and matched
    by a key in one of its states; by a key as it is, when the tests leave the
    keys as they are. *)
Theorem picked_names_ascending (headers : Headers) (keys : list Key) :
  StronglySorted name_lt (map fst (fst (pickHeaders headers keys)))
  /\ Forall (fun name => lower name = name
                         /\ Exists (may_match name) keys
                         /\ Headers_has headers name = true)
            (map fst (fst (pickHeaders headers keys)))
  /\ (forallb stateless keys = true ->
      Forall (fun name => matched keys name = true)
             (map fst (fst (pickHeaders headers keys)))).
Proof.
  destruct (pickHeaders_chosen headers keys) as (chosen & keys' & E & _ & S & P).
  rewrite E. cbn [fst]. rewrite map_map. cbn [fst]. rewrite map_id.
  split; [exact S|].
  assert (F : Forall (fun name => lower name = name
                                  /\ Exists (may_match name) keys
                                  /\ Headers_has headers name = true) chosen).
  { apply Forall_forall. intros n I. destruct (P n I) as [N X].
    destruct (sorted_names_facts headers n N) as [L H]. now repeat split. }
  split; [exact F|].
  intros Y. rewrite Forall_forall in F |- *. intros n I.
  destruct (F n I) as (_ & X & _).
  unfold matched. apply existsb_exists. apply Exists_exists in X.
  destruct X as (k & K & M). exists k. split; [exact K|].
  apply may_match_stateless; [|exact M].
  rewrite forallb_forall in Y. now apply Y.
Qed.

(** X3. With keys that are strings or regular expressions without the flags
    [g] and [y], picking again from the picked headers, with the keys as the
    first call left them, changes nothing. *)
Theorem pickHeaders_idempotent (headers : Headers) (keys : list Key) :
  forallb stateless keys = true ->
  pickHeaders (fst (pickHeaders headers keys)) (snd (pickHeaders headers keys)) =
  pickHeaders headers keys.
Proof.
  intros S. rewrite (pickHeaders_stateless headers keys S). cbn [fst snd].
  rewrite (pickHeaders_stateless _ keys S). f_equal.
  rewrite selection_twice, filter_filter_same.
  symmetry. apply selection_closed_form.
Qed.

Lemma pickHeaders_idempotent_witness :
  forallb stateless [KString "y"; KRegExp (Inputs.x_prefix false)] = true
  /\ pickHeaders
       (fst (pickHeaders Inputs.x_headers [KString "y"; KRegExp (Inputs.x_prefix false)]))
       (snd (pickHeaders Inputs.x_headers [KString "y"; KRegExp (Inputs.x_prefix false)])) =
     pickHeaders Inputs.x_headers [KString "y"; KRegExp (Inputs.x_prefix false)].
Proof.
  split; [reflexivity|].
  apply (pickHeaders_idempotent Inputs.x_headers
           [KString "y"; KRegExp (Inputs.x_prefix false)]).
  reflexivity.
Defined.

(** X4. With keys that are strings or regular expressions without the flags
    [g] and [y], picking with one list of keys and then with another gives the
    same headers in either order: those whose names both lists match. *)
Theorem pickHeaders_commute (headers : Headers) (keys1 keys2 : list Key) :
  forallb stateless keys1 = true ->
  forallb stateless keys2 = true ->
  fst (pickHeaders (fst (pickHeaders headers keys1)) keys2) =
  fst (pickHeaders (fst (pickHeaders headers keys2)) keys1)
  /\ fst (pickHeaders (fst (pickHeaders headers keys1)) keys2) =
     map (fun name => (name, picked_value headers name))
         (filter (fun name => matched keys1 name && matched keys2 name)
                 (sorted_names headers)).
Proof.
  intros S1 S2.
  rewrite (pickHeaders_stateless headers keys1 S1),
    (pickHeaders_stateless headers keys2 S2).
  cbn [fst]. rewrite (pickHeaders_stateless _ keys2 S2), (pickHeaders_stateless _ keys1 S1).
  cbn [fst]. split.
  - rewrite !selection_twice. now rewrite filter_filter_comm.
  - now rewrite selection_twice, filter_filter_and.
Qed.

Lemma pickHeaders_commute_witness :
  forallb stateless [KRegExp (Inputs.x_prefix false)] = true
  /\ forallb stateless [KString "x-b"; KString "x-c"; KString "y"] = true
  /\ fst (pickHeaders (fst (pickHeaders Inputs.x_headers [KRegExp (Inputs.x_prefix false)]))
            [KString "x-b"; KString "x-c"; KString "y"]) =
     fst (pickHeaders (fst (pickHeaders Inputs.x_headers
                              [KString "x-b"; KString "x-c"; KString "y"]))
            [KRegExp (Inputs.x_prefix false)])
  /\ fst (pickHeaders (fst (pickHeaders Inputs.x_headers [KRegExp (Inputs.x_prefix false)]))
            [KString "x-b"; KString "x-c"; KString "y"]) =
     map (fun name => (name, picked_value Inputs.x_headers name))
         (filter (fun name => matched [KRegExp (Inputs.x_prefix false)] name
                              && matched [KString "x-b"; KString "x-c"; KString "y"] name)
                 (sorted_names Inputs.x_headers)).
Proof.
  split; [reflexivity|]. split; [reflexivity|].
  apply (pickHeaders_commute Inputs.x_headers [KRegExp (Inputs.x_prefix false)]
           [KString "x-b"; KString "x-c"; KString "y"]); reflexivity.
Defined.

Lemma filter_none {A : Type} (l : list A) : filter (fun _ => false) l = [].
Proof. induction l as [|x l IH]; simpl; [reflexivity | exact IH]. Qed.



(** X6. With keys that are strings or regular expressions without the flags
    [g] and [y], [pickHeaders] reads the headers through [get] alone, and the
    keys through the names they match: headers that [get] cannot tell apart,
    picked with keys that match the same names, give the same headers,
    whatever the order, the spelling and the repetition of either. *)
Theorem pickHeaders_extensional (headers1 headers2 : Headers) (keys1 keys2 : list Key) :
  forallb stateless keys1 = true ->
  forallb stateless keys2 = true ->
  (forall name, Headers_get headers1 name = Headers_get headers2 name) ->
  (forall name, matched keys1 name = matched keys2 name) ->
  fst (pickHeaders headers1 keys1) = fst (pickHeaders headers2 keys2).
Proof.
  intros S1 S2 G K.
  rewrite (pickHeaders_stateless headers1 keys1 S1),
    (pickHeaders_stateless headers2 keys2 S2).
  cbn [fst]. rewrite !selection_closed_form.
  rewrite <- (sorted_names_ext headers1 headers2 G).
  rewrite (filter_ext _ _ K). apply map_ext_in.
  intros n I. f_equal. apply picked_value_ext; [apply G|].
  apply filter_In in I. destruct I as [I _].
  now apply sorted_names_facts in I.
Qed.

Lemma pickHeaders_extensional_witness :
  Inputs.repeated <> Inputs.joined
  /\ fst (pickHeaders Inputs.repeated [KString "a"; KString "b"]) =
     fst (pickHeaders Inputs.joined
            [KString "b"; KRegExp Inputs.exactly_a; KString "b"]).
Proof.
  split; [discriminate|].
  apply (pickHeaders_extensional Inputs.repeated Inputs.joined).
  - reflexivity.
  - reflexivity.
  - intros name. unfold Headers_get, Headers_values, Inputs.repeated, Inputs.joined.
    cbn [filter]. unfold name_is. cbn [fst].
    change (lower "B") with "b". change (lower "A") with "a".
    change (lower "a") with "a". change (lower "b") with "b".
    destruct (String.eqb_spec "b" (lower name)) as [B | _],
             (String.eqb_spec "a" (lower name)) as [A | _];
      try reflexivity.
    rewrite <- B in A. discriminate A.
  - intros name. unfold matched, key_matches.
    cbn [existsb key_test fst Inputs.exactly_a RegExp_test re_global re_sticky re_match
         orb Nat.eqb andb].
    rewrite (String.eqb_sym name "a").
    destruct ("a" =? name), ("b" =? name); reflexivity.
Defined.

(** X7. With no keys nothing is picked, and from no headers nothing is
    picked; the keys are left as they were. *)
Theorem pickHeaders_of_nothing :
  (forall headers, pickHeaders headers [] = ([], []))
  /\ (forall keys, pickHeaders [] keys = ([], keys)).
Proof.
  split.
  - intros headers. rewrite pickHeaders_turns. apply turns_no_keys.
  - reflexivity.
Qed.

(** * More about the handler *)

Lemma fixed_values (h : Headers) (n k : string) (values : list string) :
  k = lower n -> Headers_values h k = values -> Headers_values h n = values.
Proof. intros -> <-. symmetry. apply Headers_values_lower. Qed.

Lemma relayed_fixed (googleResponse : Response) :
  let out := headers (relayed_response googleResponse) in
  (forall n v, In (lower n, v) CORS_HEADERS -> Headers_values out n = [v])
  /\ (forall n, In (lower n) removed_list -> Headers_values out n = []).
Proof.
  cbv zeta. rewrite relayed_headers_of. split.
  - intros n v C. rewrite Headers_values_new, Headers_values_entries.
    unfold contribution. rewrite relayed_headers_values.
    simpl in C.
    destruct C as [C | [C | [C | []]]]; injection C as <- <-; reflexivity.
  - intros n R. rewrite Headers_values_new, Headers_values_entries.
    unfold contribution. rewrite relayed_headers_values.
    simpl in R. destruct R as [<- | [<- | [<- | []]]]; reflexivity.
Qed.

(** X8. The handler calls the upstream at most once: there is no retry and no
    second request, whatever the request and whatever the platform does. *)
Theorem at_most_one_upstream_call (platform : Platform) (request : Request)
        (context : NetlifyContext) :
  List.length (snd (run (handler platform request context))) <= 1.
Proof.
  destruct (branches platform request)
    as [M | M U | url M U R | url M U R T | url target M U R T].
  - rewrite handler_preflight by assumption. simpl. lia.
  - rewrite handler_invalid_url by assumption. simpl. lia.
  - rewrite (handler_static _ _ _ url) by assumption. simpl. lia.
  - rewrite (handler_invalid_target _ _ _ url) by assumption. simpl. lia.
  - rewrite (handler_upstream _ _ _ url target) by assumption.
    destruct (network platform _); simpl; lia.
Qed.

(** X9. Every response the handler returns, on whichever branch, carries the
    three CORS headers once each with their fixed values, and carries no
    [content-encoding], [content-length] or [alt-svc] header. *)
Theorem every_response_is_cors (platform : Platform) (request : Request)
        (context : NetlifyContext) (response : Response) :
  fst (run (handler platform request context)) = Returns response ->
  (forall n v, In (lower n, v) CORS_HEADERS -> Headers_values (headers response) n = [v])
  /\ (forall n, In (lower n) removed_list -> Headers_values (headers response) n = []).
Proof.
  intros E. destruct (returns_ends_in platform request context response E) as [t T].
  destruct T.
  - split.
    + intros n v C. simpl in C.
      destruct C as [C | [C | [C | []]]]; injection C as L <-;
        now apply (fixed_values _ _ _ _ L).
    + intros n R. simpl in R.
      destruct R as [L | [L | [L | []]]];
        now apply (fixed_values _ _ _ _ L).
  - split.
    + intros n v C. simpl in C.
      destruct C as [C | [C | [C | []]]]; injection C as L <-;
        now apply (fixed_values _ _ _ _ L).
    + intros n R. simpl in R.
      destruct R as [L | [L | [L | []]]];
        now apply (fixed_values _ _ _ _ L).
  - match goal with
    | Y : relay _ = Returns _ |- _ => apply relay_returns in Y; destruct Y as [_ ->]
    end.
    apply relayed_fixed.
  - match goal with
    | Y : relay _ = Returns _ |- _ => apply relay_returns in Y; destruct Y as [_ ->]
    end.
    apply relayed_fixed.
Qed.

Lemma every_response_is_cors_witness :
  fst (run (handler (Sample.platform (Some Sample.answer))
              (Sample.request "POST" Sample.models Sample.client_headers) tt)) =
  Returns (relayed_response Sample.answer)
  /\ (forall n v,
        In (lower n, v) CORS_HEADERS ->
        Headers_values (headers (relayed_response Sample.answer)) n = [v])
  /\ (forall n,
        In (lower n) removed_list ->
        Headers_values (headers (relayed_response Sample.answer)) n = []).
Proof.
  split; [reflexivity|].
  apply (every_response_is_cors (Sample.platform (Some Sample.answer))
           (Sample.request "POST" Sample.models Sample.client_headers) tt).
  reflexivity.
Defined.

(** X10. Every upstream call follows the request: its method and its body are
    the request's, its headers are the ones [pickHeaders] takes from the
    request's with the four keys, and its query is the request's parameters in
    their order, repeated ones included, without those whose key is exactly
    [_path]. *)
Theorem upstream_call_follows_request (platform : Platform) (request : Request)
        (context : NetlifyContext) (call : FetchCall) :
  In call (snd (run (handler platform request context))) ->
  exists url,
    URL_parse platform (req_url request) = Some url
    /\ URL_query (fetch_url call) =
       filter (fun param => negb (fst param =? "_path")) (URL_searchParams url)
    /\ fetch_method call = req_method request
    /\ fetch_body call = req_body request
    /\ fetch_headers call = fst (pickHeaders (req_headers request) forwarded_keys).
Proof.
  intros I.
  destruct (forwarded_query platform request context call I) as (url & U & Q & M & B).
  exists url. repeat split; try assumption.
  destruct (handler_calls platform request context call I)
    as (url' & target & _ & _ & _ & _ & ->).
  reflexivity.
Qed.

Lemma upstream_call_follows_request_witness :
  exists url,
    URL_parse (Sample.platform (Some Sample.answer)) Sample.models = Some url
    /\ URL_query (fetch_url Sample.models_call) =
       filter (fun param => negb (fst param =? "_path")) (URL_searchParams url)
    /\ fetch_method Sample.models_call = "POST"
    /\ fetch_body Sample.models_call = Some (Network ["{}"])
    /\ fetch_headers Sample.models_call =
       fst (pickHeaders Sample.client_headers forwarded_keys).
Proof.
  apply (upstream_call_follows_request (Sample.platform (Some Sample.answer))
           (Sample.request "POST" Sample.models Sample.client_headers) tt
           Sample.models_call).
  left. reflexivity.
Defined.

(** X11. A request whose path does not begin with an empty segment (and whose
    segments are as the URL parser leaves them) makes exactly one upstream
    call, to the origin of the upstream, with the path of the request and its
    parameters without [_path], whether the upstream answers or not. *)
Theorem plain_path_goes_upstream (platform : Platform) (request : Request)
        (context : NetlifyContext) (url : URL) (segment : string) (rest : list string) :
  req_method request <> "OPTIONS" ->
  URL_parse platform (req_url request) = Some url ->
  URL_path url = segment :: rest ->
  path_ok (segment :: rest) = true ->
  segment <> EmptyString ->
  exists call,
    snd (run (handler platform request context)) = [call]
    /\ URL_origin (fetch_url call) = URL_origin upstream
    /\ URL_path (fetch_url call) = URL_path url
    /\ URL_query (fetch_url call) =
       filter (fun param => negb (fst param =? "_path")) (URL_searchParams url).
Proof. apply plain_path_target. Qed.

Lemma plain_path_goes_upstream_witness :
  exists call,
    snd (run (handler (Sample.platform None)
                (Sample.request "GET" Sample.models Sample.other_headers) tt)) = [call]
    /\ URL_origin (fetch_url call) = URL_origin upstream
    /\ URL_path (fetch_url call) = URL_path Sample.models_url
    /\ URL_query (fetch_url call) =
       filter (fun param => negb (fst param =? "_path"))
              (URL_searchParams Sample.models_url).
Proof.
  apply (plain_path_goes_upstream (Sample.platform None)
           (Sample.request "GET" Sample.models Sample.other_headers) tt
           Sample.models_url "v1beta" ["models"]).
  - discriminate.
  - reflexivity.
  - reflexivity.
  - reflexivity.
  - discriminate.
Defined.

(** The URL parser on a path that begins with an empty segment and goes on:
    the next segment is handed to the authority parser. *)
Lemma URL_parse_relative_network (platform : Platform) (c : ascii) (name : string)
      (rest : list string) (base : URL) :
  all_plain (String c name) = true ->
  URL_parse_relative platform
    (serialize_path (EmptyString :: String c name :: rest)) base =
  match authority_parse platform (String c name) with
  | Some authority =>
      Some {| URL_scheme := URL_scheme base;
              URL_authority := authority;
              URL_path := path_start_state (serialize_path rest);
              URL_query := [] |}
  | None => None
  end.
Proof.
  intros A.
  assert (C : is_slash c = false).
  { apply all_plain_cons in A. destruct A as [A _]. now apply plain_spec in A. }
  change (serialize_path (EmptyString :: String c name :: rest))
    with (String "/" (String "/" (String c (name ++ serialize_path rest)))).
  unfold URL_parse_relative. replace (is_slash "/") with true by reflexivity.
  cbv iota beta. cbn [ignore_slashes]. rewrite C.
  change (String c (name ++ serialize_path rest))
    with (String c name ++ serialize_path rest)%string.
  now rewrite (authority_state_plain _ _ A (serialize_path_shape rest)).
Qed.

(** X12. A request whose path begins with an empty segment and goes on
    ([//name/...]) makes its one upstream call to the authority that the
    segment after it names, not to the upstream, with what is left of the
    path. *)
Theorem network_path_goes_elsewhere (platform : Platform) (request : Request)
        (context : NetlifyContext) (url : URL) (c : ascii) (name : string)
        (rest : list string) (authority : Authority) :
  req_method request <> "OPTIONS" ->
  URL_parse platform (req_url request) = Some url ->
  URL_path url = EmptyString :: String c name :: rest ->
  all_plain (String c name) = true ->
  path_ok rest = true ->
  authority_parse platform (String c name) = Some authority ->
  exists call,
    snd (run (handler platform request context)) = [call]
    /\ URL_authority (fetch_url call) = authority
    /\ URL_path (fetch_url call) =
       match rest with
       | [] => [EmptyString]
       | _ :: _ => rest
       end
    /\ fetch_headers call = fst (pickHeaders (req_headers request) forwarded_keys).
Proof.
  intros M U P A O H.
  destruct (network_path_target platform request context url c name rest authority
              M U P A O H) as (call & E & Au & Pa).
  exists call. repeat split; try assumption.
  assert (I : In call (snd (run (handler platform request context)))).
  { rewrite E. now left. }
  destruct (handler_calls platform request context call I)
    as (url' & target & _ & _ & _ & _ & ->).
  reflexivity.
Qed.

Lemma network_path_goes_elsewhere_witness :
  exists call,
    snd (run (handler (Sample.platform (Some Sample.answer))
                (Sample.request "POST" Sample.network_path Sample.client_headers) tt)) =
    [call]
    /\ URL_authority (fetch_url call) = Sample.authority_of "evil.example"
    /\ URL_path (fetch_url call) = ["v1beta"; "models"]
    /\ fetch_headers call = fst (pickHeaders Sample.client_headers forwarded_keys).
Proof.
  apply (network_path_goes_elsewhere (Sample.platform (Some Sample.answer))
           (Sample.request "POST" Sample.network_path Sample.client_headers) tt
           (Sample.proxy_url [EmptyString; "evil.example"; "v1beta"; "models"] [])
           "e" "vil.example" ["v1beta"; "models"] (Sample.authority_of "evil.example")).
  - discriminate.
  - reflexivity.
  - reflexivity.
  - reflexivity.
  - reflexivity.
  - reflexivity.
Defined.

(** X13. A request whose path begins with an empty segment followed by one
    that names no authority fails when the target URL is built: the handler
    throws, and nothing is sent upstream. *)
Theorem unreadable_authority_fails (platform : Platform) (request : Request)
        (context : NetlifyContext) (url : URL) (c : ascii) (name : string)
        (rest : list string) :
  req_method request <> "OPTIONS" ->
  URL_parse platform (req_url request) = Some url ->
  URL_path url = EmptyString :: String c name :: rest ->
  all_plain (String c name) = true ->
  authority_parse platform (String c name) = None ->
  run (handler platform request context) =
  (Throws (InvalidURL (URL_pathname url)), []).
Proof.
  intros M U P A H.
  apply (handler_invalid_target platform request context url M U).
  - unfold URL_pathname. rewrite P. discriminate.
  - unfold URL_pathname. rewrite P.
    now rewrite (URL_parse_relative_network platform c name rest upstream A), H.
Qed.

Lemma unreadable_authority_fails_witness :
  run (handler Inputs.platform
         (Sample.request "POST" Inputs.barred Sample.client_headers) tt) =
  (Throws (InvalidURL "//a|b/v1beta/models"), []).
Proof.
  apply (unreadable_authority_fails Inputs.platform
           (Sample.request "POST" Inputs.barred Sample.client_headers) tt
           Inputs.barred_url "a" "|b" ["v1beta"; "models"]).
  - discriminate.
  - reflexivity.
  - reflexivity.
  - reflexivity.
  - reflexivity.
Defined.

(** X14. The response is made of the upstream answer alone: two requests,
    on two platforms, whose upstream calls get the same answer get the same
    response, whatever their methods, URLs, headers and bodies. *)
Theorem response_is_made_of_the_answer (platform1 platform2 : Platform)
        (request1 request2 : Request) (context1 context2 : NetlifyContext)
        (call1 call2 : FetchCall) (googleResponse : Response) :
  In call1 (snd (run (handler platform1 request1 context1))) ->
  network platform1 call1 = Some googleResponse ->
  In call2 (snd (run (handler platform2 request2 context2))) ->
  network platform2 call2 = Some googleResponse ->
  fst (run (handler platform1 request1 context1)) =
  fst (run (handler platform2 request2 context2)).
Proof.
  intros I1 N1 I2 N2.
  rewrite (handler_answered platform1 request1 context1 call1 googleResponse I1 N1).
  rewrite (handler_answered platform2 request2 context2 call2 googleResponse I2 N2).
  reflexivity.
Qed.

Lemma response_is_made_of_the_answer_witness :
  Sample.request "POST" Sample.models Sample.client_headers <>
  Sample.request "DELETE" Sample.network_path Sample.repeated_headers
  /\ fst (run (handler (Sample.platform (Some Sample.answer))
                 (Sample.request "POST" Sample.models Sample.client_headers) tt)) =
     fst (run (handler (Sample.platform (Some Sample.answer))
                 (Sample.request "DELETE" Sample.network_path Sample.repeated_headers)
                 tt)).
Proof.
  split; [discriminate|].
  apply (response_is_made_of_the_answer
           (Sample.platform (Some Sample.answer)) (Sample.platform (Some Sample.answer))
           (Sample.request "POST" Sample.models Sample.client_headers)
           (Sample.request "DELETE" Sample.network_path Sample.repeated_headers)
           tt tt Sample.models_call
           {| fetch_url :=
                {| URL_scheme := "https";
                   URL_authority := Sample.authority_of "evil.example";
                   URL_path := ["v1beta"; "models"];
                   URL_query := [] |};
              fetch_body := Some (Network ["{}"]);
              fetch_method := "DELETE";
              fetch_headers := [("authorization", "Bearer a, Bearer b");
                                ("x-goog-api-client", "genai-js,")] |}
           Sample.answer).
  - left. reflexivity.
  - reflexivity.
  - left. reflexivity.
  - reflexivity.
Defined.
